(** * A shallow embedding of [poke_db/pokemon_csv.py]

    The script fetches the first 151 Pokémon from the PokeAPI, flattens
    each one into a CSV row and resolves its evolution relations through a
    per-URL cache of parsed evolution chains.

    Modelling choices:
    - JSON payloads are records holding exactly the fields the script reads;
      a node of an evolution chain is the inductive [node].
    - Python dicts are stdpp [gmap]s with [string] keys.
    - The network is three functions from URLs to payloads of the run's
      environment ([None] = [raise_for_status] raised); every call of
      [fetch_data] is recorded in a log of fetch events of the state.
    - The script body is a state and error monad ([M]); an uncaught Python
      exception is an [inl] of [py_error] and ends the run.
    - The CSV file is the list of rows handed to [csv.DictWriter]
      ([writeheader] and [writerow]), each row as its list of cells.
    - Python floats are IEEE binary64 numbers, Rocq's [spec_float] with
      [prec = 53] and [emax = 1024]. *)

From Stdlib Require Import ZArith String Ascii QArith Qabs SpecFloat.
From stdpp Require Import gmap strings list fin_maps pretty.

Open Scope string_scope.

(* ================================================================== *)
(** ** Evolution chains: [parse_evolution_chain] (lines 12-24) *)

#[local] Set Warnings "-register-all".

(** A chain node: [current["species"]["name"]] and [current["evolves_to"]]. *)
Inductive node : Type :=
| Node (species_name : string) (evolves_to : list node).

Definition species_name (n : node) : string :=
  match n with Node s _ => s end.

Definition evolves_to (n : node) : list node :=
  match n with Node _ ks => ks end.

(** The evolution-chain payload [{"chain": node}]. *)
Record chain_payload := { chain : node }.

(** A value of [evo_dict]: [{"from": previous, "to": [...]}]. *)
Record evo_entry := { evo_from : option string; evo_to : list string }.

(** State threaded through [recurse_chain]: the dict [evo_dict] of the
    closure, and a ghost log [visited] of the nodes [recurse_chain] is
    called on, in call order (the log has no counterpart in the source). *)
Record parse_state := {
  pdict : gmap string evo_entry;
  visited : list node
}.

Definition empty_parse_state : parse_state :=
  {| pdict := ∅; visited := [] |}.

(** [evo_dict[species_name]["to"].append(evo_name)].  The key is always
    present here (it was inserted at the start of the same call and keys are
    never removed), so the [KeyError] branch is unreachable. *)
Definition append_to (k x : string) (d : gmap string evo_entry)
  : gmap string evo_entry :=
  match d !! k with
  | Some e => <[k := {| evo_from := evo_from e; evo_to := evo_to e ++ [x] |}]> d
  | None => d
  end.

(** [recurse_chain(current, previous)]. *)
Fixpoint recurse_chain (current : node) (previous : option string)
    (s : parse_state) : parse_state :=
  match current with
  | Node name kids =>
      let s1 := {| pdict := <[name := {| evo_from := previous; evo_to := [] |}]> (pdict s);
                   visited := visited s ++ [current] |} in
      (fix loop (ks : list node) (s : parse_state) : parse_state :=
         match ks with
         | [] => s
         | evo :: rest =>
             let evo_name := species_name evo in
             let s2 := {| pdict := append_to name evo_name (pdict s);
                          visited := visited s |} in
             loop rest (recurse_chain evo (Some name) s2)
         end) kids s1
  end.

Definition run_parse (c : chain_payload) : parse_state :=
  recurse_chain (chain c) None empty_parse_state.

(** [parse_evolution_chain(chain)]. *)
Definition parse_evolution_chain (c : chain_payload) : gmap string evo_entry :=
  pdict (run_parse c).

(** The [for evo in current["evolves_to"]] loop of [recurse_chain], as a
    function of its own. *)
Fixpoint kids_loop (name : string) (ks : list node) (s : parse_state)
  : parse_state :=
  match ks with
  | [] => s
  | evo :: rest =>
      kids_loop name rest
        (recurse_chain evo (Some name)
           {| pdict := append_to name (species_name evo) (pdict s);
              visited := visited s |})
  end.

(** Tree vocabulary used by the statements. *)

(** The nodes of a tree in depth-first pre-order. *)
Fixpoint preorder (n : node) : list node :=
  match n with
  | Node _ ks => n :: flat_map preorder ks
  end.

Definition names (n : node) : list string := map species_name (preorder n).

(** Every node of a tree paired with the species name of its parent. *)
Fixpoint nodes_with_parent (n : node) (parent : option string)
  : list (option string * node) :=
  match n with
  | Node name ks => (parent, n) :: flat_map (fun k => nodes_with_parent k (Some name)) ks
  end.

(** Induction over chain trees, with a hypothesis for every child. *)
Section node_induction.
Variable P : node -> Prop.
Hypothesis HNode : forall name kids, Forall P kids -> P (Node name kids).

Fixpoint node_ind' (n : node) : P n :=
  match n with
  | Node name kids =>
      HNode name kids
        ((fix go (ks : list node) : Forall P ks :=
            match ks with
            | [] => @List.Forall_nil _ P
            | k :: r => @List.Forall_cons _ P k r (node_ind' k) (go r)
            end) kids)
  end.
End node_induction.

(** Sample chains: Bulbasaur's line, and a tree repeating a species name. *)
Definition bulbasaur_chain : chain_payload :=
  {| chain := Node "bulbasaur" [Node "ivysaur" [Node "venusaur" []]] |}.

Definition repeated_name_chain : chain_payload :=
  {| chain := Node "a" [Node "a" []] |}.

(* ================================================================== *)
(** ** The script body (lines 5-9 and 27-119) *)

(** Python exceptions the body can raise and does not catch. *)
Inductive py_error : Type :=
| KeyError (key : string)
| IndexError
| ValueError
| HTTPError (url : string)
| OverflowError.

(** Calls of [fetch_data], tagged with the line that makes them
    (45: Pokémon, 68: species, 86: evolution chain). *)
Inductive fetch_event : Type :=
| FetchPokemon (url : string)
| FetchSpecies (url : string)
| FetchChain (url : string).

(** The fields of the Pokémon payload the script reads:
    [name], [t["type"]["name"] for t in types],
    [(s["stat"]["name"], s["base_stat"]) for s in stats], [height],
    [weight], [sprites.other.official-artwork.front_default] (JSON [null]
    is [None]) and [species.url]. *)
Record pokemon_payload := {
  pk_name : string;
  pk_types : list string;
  pk_stats : list (string * Z);
  pk_height : Z;
  pk_weight : Z;
  pk_image : option string;
  pk_species_url : string
}.

(** [entry["flavor_text"]], [entry["language"]["name"]],
    [entry["version"]["name"]]. *)
Record flavor_entry := {
  fe_text : string;
  fe_language : string;
  fe_version : string
}.

(** [flavor_text_entries] and [evolution_chain.url] of a species payload. *)
Record species_payload := {
  sp_flavor_text_entries : list flavor_entry;
  sp_evolution_chain_url : string
}.

(** The PokeAPI as seen by [requests.get(url).json()]: [None] when
    [raise_for_status] raises. *)
Record env := {
  get_pokemon : string -> option pokemon_payload;
  get_species : string -> option species_payload;
  get_chain : string -> option chain_payload
}.

(** A value handed to [csv.DictWriter]: an [int], a [str], a [float] or
    [None]. *)
Inductive cell : Type :=
| CInt (z : Z)
| CStr (s : string)
| CFloat (f : spec_float)
| CNone.

(** Module-level state: [evo_cache], the log of network calls and the rows
    written to [pokemon.csv] so far. *)
Record run_state := {
  evo_cache : gmap string (gmap string evo_entry);
  fetch_log : list fetch_event;
  csv_rows : list (list cell)
}.

Definition initial_state : run_state :=
  {| evo_cache := ∅; fetch_log := []; csv_rows := [] |}.

(** State and exception monad. *)
Definition M (A : Type) : Type := run_state -> run_state * (py_error + A).

Definition ret {A} (x : A) : M A := fun st => (st, inr x).

Definition raise {A} (e : py_error) : M A := fun st => (st, inl e).

Definition bind {A B} (m : M A) (k : A -> M B) : M B :=
  fun st => match m st with
            | (st', inl e) => (st', inl e)
            | (st', inr x) => k x st'
            end.

Notation "'let!' x := m 'in' k" := (bind m (fun x => k))
  (at level 200, x name, m at level 100, k at level 200).

Definition log_fetch (ev : fetch_event) : M unit :=
  fun st => ({| evo_cache := evo_cache st; fetch_log := fetch_log st ++ [ev];
                csv_rows := csv_rows st |}, inr tt).

(** [fetch_data(url)]. *)
Definition fetch_data {A} (tag : string -> fetch_event)
    (api : string -> option A) (url : string) : M A :=
  let! _ := log_fetch (tag url) in
  match api url with
  | Some payload => ret payload
  | None => raise (HTTPError url)
  end.

(** [d[k]] on a dict. *)
Definition get_key {A} (d : gmap string A) (k : string) : M A :=
  match d !! k with
  | Some v => ret v
  | None => raise (KeyError k)
  end.

(** [l[i]] on a list, [i >= 0]. *)
Definition py_index {A} (l : list A) (i : nat) : M A :=
  match l !! i with
  | Some v => ret v
  | None => raise IndexError
  end.

(** [{k: v for (k, v) in l}]: a later key overwrites an earlier one. *)
Definition dict_of_pairs {A} (l : list (string * A)) : gmap string A :=
  foldl (fun d kv => <[kv.1 := kv.2]> d) ∅ l.

(** [a / b] on Python ints with [b > 0] (CPython's [long_true_divide]):
    the exact quotient rounded once to the nearest double, ties to even.
    The division core of [SFdiv], applied to the exact integers; an
    infinite result is the case where CPython raises [OverflowError]. *)
Definition int_true_div (a : Z) (b : positive) : spec_float :=
  let div sx m :=
    let '(mz, ez, lz) := SFdiv_core_binary 53 1024 (Zpos m) 0 (Zpos b) 0 in
    binary_round_aux 53 1024 sx mz ez lz in
  match a with
  | Z0 => S754_zero false
  | Zpos m => div false m
  | Zneg m => div true m
  end.

Definition py_int_true_div (a : Z) (b : positive) : M spec_float :=
  match int_true_div a b with
  | S754_infinity _ => raise OverflowError
  | f => ret f
  end.

(** [s.replace(c, r)] for a one-character [c]. Strings are byte strings
    (UTF-8); the bytes of ["\n"] and ["\f"] occur in no multi-byte
    sequence. *)
Fixpoint py_replace_char (c : ascii) (r : string) (s : string) : string :=
  match s with
  | EmptyString => EmptyString
  | String a s' =>
      if ascii_dec a c then r ++ py_replace_char c r s'
      else String a (py_replace_char c r s')
  end.

Definition newline : ascii := ascii_of_nat 10.
Definition formfeed : ascii := ascii_of_nat 12.

(** Lines 72-76: the first English Red/Blue flavor text, normalised. *)
Fixpoint find_description (entries : list flavor_entry) : string :=
  match entries with
  | [] => ""
  | entry :: rest =>
      if String.eqb (fe_language entry) "en"
         && existsb (String.eqb (fe_version entry)) ["red"; "blue"]
      then py_replace_char formfeed "" (py_replace_char newline " " (fe_text entry))
      else find_description rest
  end.

Definition put_cache (url : string) (d : gmap string evo_entry) : M unit :=
  fun st => ({| evo_cache := <[url := d]> (evo_cache st);
                fetch_log := fetch_log st; csv_rows := csv_rows st |}, inr tt).

Definition get_cache : M (gmap string (gmap string evo_entry)) :=
  fun st => (st, inr (evo_cache st)).

(** Lines 84-91. *)
Definition get_evo_dict (E : env) (evolution_chain_url : string)
  : M (gmap string evo_entry) :=
  let! cache := get_cache in
  match cache !! evolution_chain_url with
  | None =>
      let! evolution_chain_data := fetch_data FetchChain (get_chain E) evolution_chain_url in
      let evo_dict := parse_evolution_chain evolution_chain_data in
      let! _ := put_cache evolution_chain_url evo_dict in
      ret evo_dict
  | Some evo_dict => ret evo_dict
  end.

(** [evo_dict.get(name, {"from": None, "to": []})]. *)
Definition evo_details_of (evo_dict : gmap string evo_entry) (name : string)
  : evo_entry :=
  match evo_dict !! name with
  | Some e => e
  | None => {| evo_from := None; evo_to := [] |}
  end.

(** [sep.join(l)]. *)
Fixpoint py_join (sep : string) (l : list string) : string :=
  match l with
  | [] => ""
  | [x] => x
  | x :: rest => x ++ sep ++ py_join sep rest
  end.

(** Line 95: [evo_details["from"] if evo_details["from"] else ""]
    ([None] and [""] are falsy). *)
Definition render_from (e : evo_entry) : string :=
  match evo_from e with
  | Some s => if String.eqb s "" then "" else s
  | None => ""
  end.

(** Line 96: [", ".join(evo_details["to"]) if evo_details["to"] else ""]. *)
Definition render_to (e : evo_entry) : string :=
  match evo_to e with
  | [] => ""
  | l => py_join ", " l
  end.

(** Lines 31-35. *)
Definition fieldnames : list string :=
  ["id"; "pokedex_number"; "name"; "type_primary"; "type_secondary";
   "hp"; "attack"; "defense"; "special_attack"; "special_defense"; "speed";
   "height"; "weight"; "description"; "evolution_from"; "evolution_to"; "image_url"].

Definition write_row (row : list cell) : M unit :=
  fun st => ({| evo_cache := evo_cache st; fetch_log := fetch_log st;
                csv_rows := csv_rows st ++ [row] |}, inr tt).

(** [writer.writeheader()]. *)
Definition writeheader : M unit := write_row (map CStr fieldnames).

Fixpoint assoc_lookup (k : string) (d : list (string * cell)) : option cell :=
  match d with
  | [] => None
  | (k', v) :: rest => if String.eqb k k' then Some v else assoc_lookup k rest
  end.

(** [writer.writerow(rowdict)] of a [DictWriter] with the default
    [restval=""] and [extrasaction="raise"]. *)
Definition writerow (rowdict : list (string * cell)) : M unit :=
  if existsb (fun kv => negb (existsb (String.eqb kv.1) fieldnames)) rowdict
  then raise ValueError
  else write_row (map (fun k => match assoc_lookup k rowdict with
                                | Some v => v
                                | None => CStr ""
                                end) fieldnames).

Definition option_cell (o : option string) : cell :=
  match o with Some s => CStr s | None => CNone end.

Definition pokemon_url (id : Z) : string :=
  "https://pokeapi.co/api/v2/pokemon/" ++ pretty id ++ "/".

(** The body of [for id in range(1, 152)] (lines 42-119). *)
Definition process_id (E : env) (id : Z) : M unit :=
  let! pokemon_data := fetch_data FetchPokemon (get_pokemon E) (pokemon_url id) in
  let pokedex_number := id in
  let name := pk_name pokemon_data in
  let types := pk_types pokemon_data in
  let! type_primary := py_index types 0 in
  let type_secondary := if Nat.ltb 1 (length types) then nth 1 types "" else "" in
  let stats := dict_of_pairs (pk_stats pokemon_data) in
  let! hp := get_key stats "hp" in
  let! attack := get_key stats "attack" in
  let! defense := get_key stats "defense" in
  let! special_attack := get_key stats "special-attack" in
  let! special_defense := get_key stats "special-defense" in
  let! speed := get_key stats "speed" in
  let! height := py_int_true_div (pk_height pokemon_data) 10 in
  let! weight := py_int_true_div (pk_weight pokemon_data) 10 in
  let image_url := pk_image pokemon_data in
  let species_url := pk_species_url pokemon_data in
  let! species_data := fetch_data FetchSpecies (get_species E) species_url in
  let description := find_description (sp_flavor_text_entries species_data) in
  let evolution_chain_url := sp_evolution_chain_url species_data in
  let! evo_dict := get_evo_dict E evolution_chain_url in
  let evo_details := evo_details_of evo_dict name in
  let evolution_from := render_from evo_details in
  let evolution_to := render_to evo_details in
  writerow [("id", CInt id); ("pokedex_number", CInt pokedex_number);
            ("name", CStr name); ("type_primary", CStr type_primary);
            ("type_secondary", CStr type_secondary);
            ("hp", CInt hp); ("attack", CInt attack); ("defense", CInt defense);
            ("special_attack", CInt special_attack);
            ("special_defense", CInt special_defense); ("speed", CInt speed);
            ("height", CFloat height); ("weight", CFloat weight);
            ("description", CStr description);
            ("evolution_from", CStr evolution_from);
            ("evolution_to", CStr evolution_to);
            ("image_url", option_cell image_url)].

(** [range(start, stop)]. *)
Definition py_range (start stop : Z) : list Z :=
  map (fun n : nat => (start + Z.of_nat n)%Z) (seq 0 (Z.to_nat (stop - start)%Z)).

Fixpoint for_each (f : Z -> M unit) (ids : list Z) : M unit :=
  match ids with
  | [] => ret tt
  | id :: rest => let! _ := f id in for_each f rest
  end.

(** Lines 27-119: header, then one iteration per id. *)
Definition main (E : env) : M unit :=
  let! _ := writeheader in
  for_each (process_id E) (py_range 1 152).

Definition run_main (E : env) : run_state * (py_error + unit) :=
  main E initial_state.

(** The URLs of the evolution-chain fetches of a log, in order. *)
Fixpoint chain_fetches (log : list fetch_event) : list string :=
  match log with
  | [] => []
  | FetchChain u :: rest => u :: chain_fetches rest
  | _ :: rest => chain_fetches rest
  end.

(** Invariant of the cache between two ids: no chain URL was fetched
    twice, and every fetched one is cached. *)
Definition cache_inv (st : run_state) : Prop :=
  NoDup (chain_fetches (fetch_log st)) /\
  forall u, u ∈ chain_fetches (fetch_log st) -> is_Some (evo_cache st !! u).

(** A computation keeps [cache_inv] when it succeeds, and keeps the
    fetched chain URLs distinct even when it raises. *)
Definition keeps_inv {A} (m : M A) : Prop :=
  forall st, cache_inv st ->
    NoDup (chain_fetches (fetch_log (m st).1)) /\
    (forall x, (m st).2 = inr x -> cache_inv (m st).1).

(** A computation that never removes or replaces a cache entry. *)
Definition cache_grows {A} (m : M A) : Prop :=
  forall st, evo_cache st ⊆ evo_cache (m st).1.

(** A sample environment: every id is a Bulbasaur sharing one chain. *)
Definition sample_pokemon : pokemon_payload :=
  {| pk_name := "bulbasaur"; pk_types := ["grass"; "poison"];
     pk_stats := [("hp", 45); ("attack", 49); ("defense", 49);
                  ("special-attack", 65); ("special-defense", 65); ("speed", 45)];
     pk_height := 7; pk_weight := 69;
     pk_image := Some "https://example.org/1.png";
     pk_species_url := "https://pokeapi.co/api/v2/pokemon-species/1/" |}%Z.

Definition sample_species : species_payload :=
  {| sp_flavor_text_entries :=
       [{| fe_text := "A strange seed"; fe_language := "en"; fe_version := "red" |}];
     sp_evolution_chain_url := "https://pokeapi.co/api/v2/evolution-chain/1/" |}.

Definition sample_env : env :=
  {| get_pokemon := fun _ => Some sample_pokemon;
     get_species := fun _ => Some sample_species;
     get_chain := fun _ => Some bulbasaur_chain |}.

(** The six stats the record needs, in the order the code reads them. *)
Definition required_stats : list string :=
  ["hp"; "attack"; "defense"; "special-attack"; "special-defense"; "speed"].

(** A flavor-text entry in English for Red or Blue. *)
Definition en_red_blue (e : flavor_entry) : Prop :=
  fe_language e = "en" /\ (fe_version e = "red" \/ fe_version e = "blue").

(** A newline becomes a space, a form feed is dropped, other characters
    are kept. *)
Fixpoint normalise (s : string) : string :=
  match s with
  | EmptyString => EmptyString
  | String a s' =>
      (if ascii_dec a newline then " "
       else if ascii_dec a formfeed then "" else String a "") ++ normalise s'
  end.

(** The API of [E] with the flavor-text entries of every species payload
    replaced by [f url payload]. *)
Definition with_entries (f : string -> species_payload -> list flavor_entry) (E : env)
  : env :=
  {| get_pokemon := get_pokemon E;
     get_species := fun url =>
       option_map (fun sp => {| sp_flavor_text_entries := f url sp;
                                sp_evolution_chain_url := sp_evolution_chain_url sp |})
                  (get_species E url);
     get_chain := get_chain E |}.

(** The API of [E] with the evolution-chain payloads served by [g]. *)
Definition with_chains (g : string -> option chain_payload) (E : env) : env :=
  {| get_pokemon := get_pokemon E; get_species := get_species E; get_chain := g |}.

(** Sample payloads for the error paths: a Pokémon without a speed stat,
    one without types, and a species whose chain does not list it. *)
Definition no_speed_pokemon : pokemon_payload :=
  {| pk_name := pk_name sample_pokemon; pk_types := pk_types sample_pokemon;
     pk_stats := removelast (pk_stats sample_pokemon);
     pk_height := pk_height sample_pokemon; pk_weight := pk_weight sample_pokemon;
     pk_image := pk_image sample_pokemon;
     pk_species_url := pk_species_url sample_pokemon |}.

Definition no_types_pokemon : pokemon_payload :=
  {| pk_name := pk_name sample_pokemon; pk_types := [];
     pk_stats := pk_stats sample_pokemon;
     pk_height := pk_height sample_pokemon; pk_weight := pk_weight sample_pokemon;
     pk_image := pk_image sample_pokemon;
     pk_species_url := pk_species_url sample_pokemon |}.

Definition other_chain_env : env :=
  {| get_pokemon := get_pokemon sample_env;
     get_species := get_species sample_env;
     get_chain := fun _ => Some {| chain := Node "eevee" [Node "vaporeon" []] |} |}.

(** An environment whose Pokémon all lack a speed stat. *)
Definition no_speed_env : env :=
  {| get_pokemon := fun _ => Some no_speed_pokemon;
     get_species := get_species sample_env;
     get_chain := get_chain sample_env |}.

(** The URLs of the Pokémon fetches of a log, in order. *)
Fixpoint pokemon_fetches (log : list fetch_event) : list string :=
  match log with
  | [] => []
  | FetchPokemon u :: rest => u :: pokemon_fetches rest
  | _ :: rest => pokemon_fetches rest
  end.

(** Every mapping in [evo_cache] is the parse of the chain the API serves
    at its URL. *)
Definition cache_coherent (E : env) (st : run_state) : Prop :=
  forall u d, evo_cache st !! u = Some d ->
    exists c, get_chain E u = Some c /\ d = parse_evolution_chain c.

(** [m] keeps [P] of the state, whether it returns or raises. *)
Definition preserves {A} (P : run_state -> Prop) (m : M A) : Prop :=
  forall st, P st -> P (m st).1.

(** [m] keeps [P] of the state when it raises. *)
Definition preserves_on_error {A} (P : run_state -> Prop) (m : M A) : Prop :=
  forall st st' e, P st -> m st = (st', inl e) -> P st'.

(** The rational number a finite double stands for. *)
Definition SF2Q (f : spec_float) : Q :=
  match f with
  | S754_finite s m e =>
      let q := inject_Z (if s then Zneg m else Zpos m) in
      match e with
      | Zpos p => Qmult q (inject_Z (2 ^ Zpos p))
      | Z0 => q
      | Zneg p => Qdiv q (inject_Z (2 ^ Zpos p))
      end
  | _ => inject_Z 0
  end.

Definition is_finite_double (f : spec_float) : bool :=
  match f with S754_zero _ | S754_finite _ _ _ => true | _ => false end.

(** [f] is a double nearest to [q]: it is finite and no farther from [q]
    than its neighbours [SFpred f] and [SFsucc f], hence than any double. *)
Definition nearest_double (f : spec_float) (q : Q) : bool :=
  is_finite_double f &&
  Qle_bool (Qabs (Qminus (SF2Q f) q)) (Qabs (Qminus (SF2Q (SFsucc 53 1024 f)) q)) &&
  Qle_bool (Qabs (Qminus (SF2Q f) q)) (Qabs (Qminus (SF2Q (SFpred 53 1024 f)) q)).

(** [nearest_double] for [raw / 10], [raw] from [start] to [start + n - 1]. *)
Fixpoint nearest_division_check (n : nat) (start : Z) : bool :=
  match n with
  | O => true
  | S n' => nearest_double (int_true_div start 10) (Qmake start 10)
            && nearest_division_check n' (Z.succ start)
  end.

(* ================================================================== *)
(** * Properties *)

Open Scope list_scope.

(* ------------------------------------------------------------------ *)
(** ** The evolution-chain parser *)

Lemma elem_of_flat_map {A B} (f : A -> list B) (l : list A) (x : B) :
  x ∈ flat_map f l <-> exists y, y ∈ l /\ x ∈ f y.
Proof.
  rewrite list_elem_of_In, in_flat_map.
  split; intros [y [Hy Hx]]; exists y; rewrite ?list_elem_of_In in *; auto.
Qed.

Lemma names_Node name kids :
  names (Node name kids) = name :: flat_map names kids.
Proof.
  unfold names; simpl; f_equal.
  induction kids as [|k ks IH]; simpl; [done|].
  by rewrite map_app, IH.
Qed.

Lemma recurse_chain_Node name kids p s :
  recurse_chain (Node name kids) p s =
  kids_loop name kids
    {| pdict := <[name := {| evo_from := p; evo_to := [] |}]> (pdict s);
       visited := visited s ++ [Node name kids] |}.
Proof.
  simpl. generalize {| pdict := <[name := {| evo_from := p; evo_to := [] |}]> (pdict s);
                       visited := visited s ++ [Node name kids] |} as s1.
  induction kids as [|k ks IH]; intros s1; simpl; [done|].
  apply IH.
Qed.

Lemma append_to_ne k k' x d :
  k' <> k -> append_to k x d !! k' = d !! k'.
Proof.
  intros Hne. unfold append_to.
  destruct (d !! k); [by rewrite lookup_insert_ne | done].
Qed.

Lemma append_to_eq k x d f l :
  d !! k = Some {| evo_from := f; evo_to := l |} ->
  append_to k x d !! k = Some {| evo_from := f; evo_to := l ++ [x] |}.
Proof.
  intros H. unfold append_to. rewrite H. by rewrite lookup_insert_eq.
Qed.

(** Each call of [recurse_chain] is logged once: the log grows by the
    tree's nodes in pre-order. *)
Lemma recurse_chain_visited t :
  forall p s, visited (recurse_chain t p s) = visited s ++ preorder t.
Proof.
  induction t as [name kids IH] using node_ind'.
  intros p s.
  assert (forall s0 : parse_state,
            visited (kids_loop name kids s0) = visited s0 ++ flat_map preorder kids)
    as Hloop.
  { clear p s. induction IH as [|k ks Hk _ IHks]; intros s0; simpl.
    - by rewrite app_nil_r.
    - rewrite IHks, Hk. simpl. by rewrite app_assoc. }
  rewrite recurse_chain_Node, Hloop. simpl.
  by rewrite <- app_assoc.
Qed.

(** A call of [recurse_chain] writes only the keys of its own subtree. *)
Lemma recurse_chain_frame t :
  forall p s k, k ∉ names t -> pdict (recurse_chain t p s) !! k = pdict s !! k.
Proof.
  induction t as [name kids IH] using node_ind'.
  intros p s k Hk. rewrite names_Node in Hk.
  apply not_elem_of_cons in Hk as [Hkn Hkr].
  assert (forall s0 : parse_state, k ∉ flat_map names kids ->
            pdict (kids_loop name kids s0) !! k = pdict s0 !! k) as Hloop.
  { clear Hkr. induction IH as [|c cs Hc _ IHcs]; intros s0 Hks; simpl; [done|].
    simpl in Hks. apply not_elem_of_app in Hks as [Hk1 Hk2].
    rewrite IHcs, Hc by done. simpl. by apply append_to_ne. }
  rewrite recurse_chain_Node, Hloop by done. simpl.
  by rewrite lookup_insert_ne.
Qed.

Lemma nodes_with_parent_names t :
  forall p q m, (q, m) ∈ nodes_with_parent t p -> species_name m ∈ names t.
Proof.
  induction t as [name kids IH] using node_ind'.
  intros p q m Hin. rewrite names_Node. simpl in Hin.
  apply elem_of_cons in Hin as [Heq | Hin].
  - inversion Heq; subst. simpl. apply elem_of_cons. by left.
  - apply elem_of_cons. right.
    apply elem_of_flat_map in Hin as [c [Hc Hin]].
    apply elem_of_flat_map. exists c. split; [done|].
    rewrite Forall_forall in IH. by eapply IH.
Qed.

(** With pairwise distinct species names, every node's entry is written
    once, with its parent's name as ["from"] and its children's names as
    ["to"]. *)
Lemma recurse_chain_entries t :
  NoDup (names t) ->
  forall p s q m, (q, m) ∈ nodes_with_parent t p ->
  pdict (recurse_chain t p s) !! species_name m =
    Some {| evo_from := q; evo_to := map species_name (evolves_to m) |}.
Proof.
  induction t as [name kids IH] using node_ind'.
  intros Hnd p s q m Hin. rewrite names_Node in Hnd.
  apply NoDup_cons in Hnd as [Hname Hnd].
  assert (forall (ks : list node) (s0 : parse_state) (acc : list string),
            Forall (fun t => NoDup (names t) -> forall p s q m,
                      (q, m) ∈ nodes_with_parent t p ->
                      pdict (recurse_chain t p s) !! species_name m =
                      Some {| evo_from := q; evo_to := map species_name (evolves_to m) |}) ks ->
            name ∉ flat_map names ks -> NoDup (flat_map names ks) ->
            pdict s0 !! name = Some {| evo_from := p; evo_to := acc |} ->
            pdict (kids_loop name ks s0) !! name =
              Some {| evo_from := p; evo_to := acc ++ map species_name ks |} /\
            forall q m, (q, m) ∈ flat_map (fun k => nodes_with_parent k (Some name)) ks ->
              pdict (kids_loop name ks s0) !! species_name m =
              Some {| evo_from := q; evo_to := map species_name (evolves_to m) |})
    as Hloop.
  { clear. intros ks. induction ks as [|c cs IHcs]; intros s0 acc HF Hn Hnd Hs0; simpl.
    - rewrite app_nil_r. split; [done|]. intros q m Hin. by apply elem_of_nil in Hin.
    - apply Forall_cons in HF as [Hc HF].
      simpl in Hn, Hnd. apply not_elem_of_app in Hn as [Hn1 Hn2].
      apply NoDup_app in Hnd as [Hnd1 [Hdisj Hnd2]].
      set (s1 := recurse_chain c (Some name)
                   {| pdict := append_to name (species_name c) (pdict s0);
                      visited := visited s0 |}).
      assert (pdict s1 !! name =
                Some {| evo_from := p; evo_to := acc ++ [species_name c] |}) as Hs1.
      { unfold s1. rewrite recurse_chain_frame by done. simpl.
        by apply append_to_eq. }
      destruct (IHcs s1 (acc ++ [species_name c]) HF Hn2 Hnd2 Hs1) as [IH1 IH2].
      split.
      + rewrite IH1. by rewrite <- app_assoc.
      + intros q m Hin. apply elem_of_app in Hin as [Hin | Hin]; [|by apply IH2].
        pose proof (nodes_with_parent_names _ _ _ _ Hin) as Hm.
        assert (pdict (kids_loop name cs s1) !! species_name m = pdict s1 !! species_name m)
          as Hfr.
        { clear IH1 IH2 IHcs Hs1 HF.
          assert (species_name m ∉ flat_map names cs) as Hmcs by (by apply Hdisj).
          clear Hdisj Hnd2 Hn2. generalize s1. clear s1.
          induction cs as [|c' cs' IH']; intros s1; simpl; [done|].
          simpl in Hmcs. apply not_elem_of_app in Hmcs as [Hm1 Hm2].
          rewrite IH' by done. rewrite recurse_chain_frame by done. simpl.
          apply append_to_ne. intros Heq. apply Hn1. by rewrite <- Heq. }
        rewrite Hfr. unfold s1. by apply Hc. }
  set (s1 := {| pdict := <[name := {| evo_from := p; evo_to := [] |}]> (pdict s);
               visited := visited s ++ [Node name kids] |}).
  simpl in Hin. apply elem_of_cons in Hin as [Heq | Hin].
  - inversion Heq; subst. rewrite recurse_chain_Node. cbn [species_name evolves_to].
    destruct (Hloop kids s1 [] IH Hname Hnd) as [H1 _]; [simpl; apply lookup_insert_eq|].
    exact H1.
  - rewrite recurse_chain_Node.
    destruct (Hloop kids s1 [] IH Hname Hnd) as [_ H2]; [simpl; apply lookup_insert_eq|].
    by apply H2.
Qed.

Lemma preorder_nodes_with_parent t :
  forall p m, m ∈ preorder t -> exists q, (q, m) ∈ nodes_with_parent t p.
Proof.
  induction t as [name kids IH] using node_ind'.
  intros p m Hm. simpl in Hm. apply elem_of_cons in Hm as [-> | Hm].
  - exists p. simpl. apply elem_of_cons. by left.
  - apply elem_of_flat_map in Hm as [c [Hc Hm]].
    rewrite Forall_forall in IH. destruct (IH c Hc (Some name) m Hm) as [q Hq].
    exists q. simpl. apply elem_of_cons. right.
    apply elem_of_flat_map. by exists c.
Qed.

Lemma child_nodes_with_parent t :
  forall p par ch, par ∈ preorder t -> ch ∈ evolves_to par ->
  (Some (species_name par), ch) ∈ nodes_with_parent t p.
Proof.
  induction t as [name kids IH] using node_ind'.
  intros p par ch Hpar Hch. simpl. apply elem_of_cons. right.
  apply elem_of_flat_map.
  simpl in Hpar. apply elem_of_cons in Hpar as [-> | Hpar].
  - simpl in Hch. exists ch. split; [done|].
    destruct ch as [cn ck]. simpl. apply elem_of_cons. by left.
  - apply elem_of_flat_map in Hpar as [c [Hc Hpar]].
    exists c. split; [done|]. rewrite Forall_forall in IH. by apply IH.
Qed.

Lemma root_nodes_with_parent t p : (p, t) ∈ nodes_with_parent t p.
Proof. destruct t. simpl. apply elem_of_cons. by left. Qed.

Lemma parse_evolution_chain_entries (c : chain_payload) q m :
  NoDup (names (chain c)) -> (q, m) ∈ nodes_with_parent (chain c) None ->
  parse_evolution_chain c !! species_name m =
    Some {| evo_from := q; evo_to := map species_name (evolves_to m) |}.
Proof. intros Hnd Hin. unfold parse_evolution_chain, run_parse. by apply recurse_chain_entries. Qed.

(** C1, as stated: counterexample.  In [a -> a] the child's entry
    overwrites the root's, so the root's ["to"] ends up empty instead of
    [["a"]]. *)
Lemma parse_evolution_chain_repeated_name :
  ~ (forall c : chain_payload,
       visited (run_parse c) = preorder (chain c) /\
       (forall k, is_Some (parse_evolution_chain c !! k) <-> k ∈ names (chain c)) /\
       (forall m, m ∈ preorder (chain c) ->
          option_map evo_to (parse_evolution_chain c !! species_name m) =
          Some (map species_name (evolves_to m)))).
Proof.
  intros H. destruct (H repeated_name_chain) as [_ [_ Hto]].
  specialize (Hto (Node "a" [Node "a" []])).
  assert (Node "a" [Node "a" []] ∈ preorder (chain repeated_name_chain)) as Hin
    by (simpl; apply elem_of_cons; by left).
  specialize (Hto Hin). vm_compute in Hto. discriminate.
Qed.

(** C1 (amended): for an evolution-chain tree whose species names are
    pairwise distinct, [parse_evolution_chain] calls [recurse_chain] once per
    node, in pre-order; its keys are exactly the species names of the tree;
    and each node's ["to"] is the list of its children's names in source
    order. *)
Theorem parse_evolution_chain_correct (c : chain_payload) :
  NoDup (names (chain c)) ->
  visited (run_parse c) = preorder (chain c) /\
  (forall k, is_Some (parse_evolution_chain c !! k) <-> k ∈ names (chain c)) /\
  (forall m, m ∈ preorder (chain c) ->
     option_map evo_to (parse_evolution_chain c !! species_name m) =
     Some (map species_name (evolves_to m))).
Proof.
  intros Hnd. split; [|split].
  - unfold run_parse. by rewrite recurse_chain_visited.
  - intros k. split.
    + intros Hk. destruct (decide (k ∈ names (chain c))) as [|Hn]; [done|].
      unfold parse_evolution_chain, run_parse in Hk.
      rewrite recurse_chain_frame in Hk by done. simpl in Hk.
      rewrite lookup_empty in Hk. by destruct Hk.
    + intros Hk. unfold names in Hk. apply list_elem_of_fmap in Hk as [m [-> Hm]].
      destruct (preorder_nodes_with_parent _ None m Hm) as [q Hq].
      rewrite parse_evolution_chain_entries with (q := q) by done. by eexists.
  - intros m Hm.
    destruct (preorder_nodes_with_parent _ None m Hm) as [q Hq].
    by rewrite parse_evolution_chain_entries with (q := q).
Qed.

Lemma parse_evolution_chain_correct_witness :
  NoDup (names (chain bulbasaur_chain)) /\
  visited (run_parse bulbasaur_chain) = preorder (chain bulbasaur_chain) /\
  (forall k, is_Some (parse_evolution_chain bulbasaur_chain !! k) <->
             k ∈ names (chain bulbasaur_chain)) /\
  (forall m, m ∈ preorder (chain bulbasaur_chain) ->
     option_map evo_to (parse_evolution_chain bulbasaur_chain !! species_name m) =
     Some (map species_name (evolves_to m))).
Proof.
  assert (NoDup (names (chain bulbasaur_chain))) as Hnd
    by (apply (bool_decide_unpack _); vm_compute; reflexivity).
  split; [exact Hnd|]. apply (parse_evolution_chain_correct bulbasaur_chain). exact Hnd.
Defined.

(** C2, as stated: counterexample.  In [a -> a] the root's ["from"] is
    overwritten by the child's and becomes ["a"]. *)
Lemma parse_evolution_chain_root_from_repeated_name :
  ~ (forall c : chain_payload,
       option_map evo_from (parse_evolution_chain c !! species_name (chain c)) = Some None /\
       (forall par ch, par ∈ preorder (chain c) -> ch ∈ evolves_to par ->
          option_map evo_from (parse_evolution_chain c !! species_name ch) =
          Some (Some (species_name par)))).
Proof.
  intros H. destruct (H repeated_name_chain) as [Hroot _].
  vm_compute in Hroot. discriminate.
Qed.

(** C2 (amended): for an evolution-chain tree whose species names are
    pairwise distinct, the root's ["from"] is [None] and every other node's
    ["from"] is its parent's species name. *)
Theorem parse_evolution_chain_from (c : chain_payload) :
  NoDup (names (chain c)) ->
  option_map evo_from (parse_evolution_chain c !! species_name (chain c)) = Some None /\
  (forall par ch, par ∈ preorder (chain c) -> ch ∈ evolves_to par ->
     option_map evo_from (parse_evolution_chain c !! species_name ch) =
     Some (Some (species_name par))).
Proof.
  intros Hnd. split.
  - rewrite parse_evolution_chain_entries with (q := None); [done | done |].
    apply root_nodes_with_parent.
  - intros par ch Hpar Hch.
    rewrite parse_evolution_chain_entries with (q := Some (species_name par)); [done|done|].
    by apply child_nodes_with_parent.
Qed.

Lemma parse_evolution_chain_from_witness :
  NoDup (names (chain bulbasaur_chain)) /\
  option_map evo_from (parse_evolution_chain bulbasaur_chain !!
                       species_name (chain bulbasaur_chain)) = Some None /\
  (forall par ch, par ∈ preorder (chain bulbasaur_chain) -> ch ∈ evolves_to par ->
     option_map evo_from (parse_evolution_chain bulbasaur_chain !! species_name ch) =
     Some (Some (species_name par))).
Proof.
  assert (NoDup (names (chain bulbasaur_chain))) as Hnd
    by (apply (bool_decide_unpack _); vm_compute; reflexivity).
  split; [exact Hnd|]. apply (parse_evolution_chain_from bulbasaur_chain). exact Hnd.
Defined.

(* ------------------------------------------------------------------ *)
(** ** The evolution cache *)

Lemma chain_fetches_app l1 l2 :
  chain_fetches (l1 ++ l2) = chain_fetches l1 ++ chain_fetches l2.
Proof.
  induction l1 as [|[u|u|u] l1 IH]; simpl; rewrite ?IH; done.
Qed.

Lemma keeps_inv_ret {A} (x : A) : keeps_inv (ret x).
Proof. intros st [H1 H2]. split; [done|]. intros ? _. by split. Qed.

Lemma keeps_inv_raise {A} e : keeps_inv (@raise A e).
Proof. intros st [H1 H2]. split; [done|]. intros ? [=]. Qed.

Lemma keeps_inv_bind {A B} (m : M A) (k : A -> M B) :
  keeps_inv m -> (forall x, keeps_inv (k x)) -> keeps_inv (bind m k).
Proof.
  intros Hm Hk st Hst. unfold bind.
  destruct (Hm st Hst) as [Hnd Hok].
  destruct (m st) as [st' [e|x]]; simpl in *; [split; [done | intros ? [=]]|].
  by apply Hk, (Hok x).
Qed.

Lemma keeps_inv_fetch_pokemon (api : string -> option pokemon_payload) url : keeps_inv (fetch_data FetchPokemon api url).
Proof.
  intros st [H1 H2].
  assert (chain_fetches (fetch_log st ++ [FetchPokemon url]) = chain_fetches (fetch_log st))
    as Hcf by (rewrite chain_fetches_app; simpl; apply app_nil_r).
  unfold fetch_data, bind, log_fetch. simpl.
  destruct (api url); simpl; rewrite Hcf; (split; [done|]); intros ? Hx; [|discriminate].
  unfold cache_inv. simpl. by rewrite Hcf.
Qed.

Lemma keeps_inv_fetch_species (api : string -> option species_payload) url : keeps_inv (fetch_data FetchSpecies api url).
Proof.
  intros st [H1 H2].
  assert (chain_fetches (fetch_log st ++ [FetchSpecies url]) = chain_fetches (fetch_log st))
    as Hcf by (rewrite chain_fetches_app; simpl; apply app_nil_r).
  unfold fetch_data, bind, log_fetch. simpl.
  destruct (api url); simpl; rewrite Hcf; (split; [done|]); intros ? Hx; [|discriminate].
  unfold cache_inv. simpl. by rewrite Hcf.
Qed.

Lemma keeps_inv_get_key {A} (d : gmap string A) k : keeps_inv (get_key d k).
Proof. unfold get_key. destruct (d !! k); [apply keeps_inv_ret | apply keeps_inv_raise]. Qed.

Lemma keeps_inv_py_index {A} (l : list A) i : keeps_inv (py_index l i).
Proof. unfold py_index. destruct (l !! i); [apply keeps_inv_ret | apply keeps_inv_raise]. Qed.

Lemma keeps_inv_py_int_true_div a b : keeps_inv (py_int_true_div a b).
Proof.
  unfold py_int_true_div. destruct (int_true_div a b);
    first [apply keeps_inv_ret | apply keeps_inv_raise].
Qed.

Lemma keeps_inv_writerow r : keeps_inv (writerow r).
Proof.
  unfold writerow. destruct existsb; [apply keeps_inv_raise|].
  intros st [H1 H2]. simpl. split; [done|]. intros ? _. by split.
Qed.

(** Lookup of a cached URL: the stored mapping, no state change. *)
Lemma get_evo_dict_hit E url st d :
  evo_cache st !! url = Some d -> get_evo_dict E url st = (st, inr d).
Proof. intros H. unfold get_evo_dict, get_cache, bind. simpl. by rewrite H. Qed.

(** Lookup of an uncached URL: one fetch; on success the parsed mapping is
    stored under the URL and returned. *)
Lemma get_evo_dict_miss E url st :
  evo_cache st !! url = None ->
  get_evo_dict E url st =
    match get_chain E url with
    | Some c =>
        ({| evo_cache := <[url := parse_evolution_chain c]> (evo_cache st);
            fetch_log := fetch_log st ++ [FetchChain url];
            csv_rows := csv_rows st |}, inr (parse_evolution_chain c))
    | None =>
        ({| evo_cache := evo_cache st;
            fetch_log := fetch_log st ++ [FetchChain url];
            csv_rows := csv_rows st |}, inl (HTTPError url))
    end.
Proof.
  intros H. unfold get_evo_dict, get_cache, bind. simpl. rewrite H.
  unfold fetch_data, log_fetch, bind. simpl.
  by destruct (get_chain E url).
Qed.

Lemma keeps_inv_get_evo_dict E url : keeps_inv (get_evo_dict E url).
Proof.
  intros st [H1 H2].
  destruct (evo_cache st !! url) as [d|] eqn:Hc.
  { rewrite (get_evo_dict_hit E url st d Hc). simpl. split; [done|].
    intros ? _. by split. }
  rewrite (get_evo_dict_miss E url st Hc).
  assert (url ∉ chain_fetches (fetch_log st)) as Hnew.
  { intros Hin. destruct (H2 url Hin) as [v Hv]. congruence. }
  assert (NoDup (chain_fetches (fetch_log st ++ [FetchChain url]))) as Hnd.
  { rewrite chain_fetches_app. simpl. apply NoDup_app.
    split; [done|]. split; [|apply NoDup_singleton].
    intros x Hx Hx'. apply list_elem_of_singleton in Hx'. by subst. }
  destruct (get_chain E url) as [c|]; simpl; (split; [done|]); [|intros ? [=]].
  intros ? _. split; [done|]. simpl. rewrite chain_fetches_app. simpl.
  intros u Hu. apply elem_of_app in Hu as [Hu | Hu].
  - destruct (decide (u = url)) as [->|Hne]; [by rewrite lookup_insert_eq|].
    rewrite lookup_insert_ne by done. by apply H2.
  - apply list_elem_of_singleton in Hu. subst. by rewrite lookup_insert_eq.
Qed.

Ltac keeps_inv_step :=
  repeat first [ apply keeps_inv_fetch_pokemon | apply keeps_inv_fetch_species
               | apply keeps_inv_get_evo_dict | apply keeps_inv_get_key
               | apply keeps_inv_py_index | apply keeps_inv_writerow
               | apply keeps_inv_py_int_true_div
               | apply keeps_inv_ret
               | apply keeps_inv_bind; intros ].

Lemma keeps_inv_process_id E id : keeps_inv (process_id E id).
Proof. unfold process_id. keeps_inv_step. Qed.

Lemma keeps_inv_for_each f ids :
  (forall id, keeps_inv (f id)) -> keeps_inv (for_each f ids).
Proof.
  intros Hf. induction ids as [|id ids IH]; simpl; [apply keeps_inv_ret|].
  apply keeps_inv_bind; auto.
Qed.

Lemma keeps_inv_main E : keeps_inv (main E).
Proof.
  unfold main. apply keeps_inv_bind.
  - intros st [H1 H2]. simpl. split; [done|]. intros ? _. by split.
  - intros _. apply keeps_inv_for_each, keeps_inv_process_id.
Qed.

Lemma cache_inv_initial : cache_inv initial_state.
Proof. split; simpl; [constructor | intros u Hu; by apply elem_of_nil in Hu]. Qed.

Lemma cache_grows_ret {A} (x : A) : cache_grows (ret x).
Proof. intros st. done. Qed.

Lemma cache_grows_raise {A} e : cache_grows (@raise A e).
Proof. intros st. done. Qed.

Lemma cache_grows_bind {A B} (m : M A) (k : A -> M B) :
  cache_grows m -> (forall x, cache_grows (k x)) -> cache_grows (bind m k).
Proof.
  intros Hm Hk st. unfold bind. specialize (Hm st).
  destruct (m st) as [st' [e|x]]; simpl in *; [done|].
  etrans; [exact Hm | apply Hk].
Qed.

Lemma cache_grows_fetch_data {A} tag (api : string -> option A) url :
  cache_grows (fetch_data tag api url).
Proof.
  intros st. unfold fetch_data, bind, log_fetch. simpl.
  by destruct (api url).
Qed.

Lemma cache_grows_get_key {A} (d : gmap string A) k : cache_grows (get_key d k).
Proof. unfold get_key. destruct (d !! k); [apply cache_grows_ret | apply cache_grows_raise]. Qed.

Lemma cache_grows_py_index {A} (l : list A) i : cache_grows (py_index l i).
Proof. unfold py_index. destruct (l !! i); [apply cache_grows_ret | apply cache_grows_raise]. Qed.

Lemma cache_grows_py_int_true_div a b : cache_grows (py_int_true_div a b).
Proof.
  unfold py_int_true_div. destruct (int_true_div a b);
    first [apply cache_grows_ret | apply cache_grows_raise].
Qed.

Lemma cache_grows_writerow r : cache_grows (writerow r).
Proof. unfold writerow. intros st. destruct existsb; simpl; done. Qed.

Lemma cache_grows_get_evo_dict E url : cache_grows (get_evo_dict E url).
Proof.
  intros st. destruct (evo_cache st !! url) as [d|] eqn:Hc.
  - by rewrite (get_evo_dict_hit E url st d Hc).
  - rewrite (get_evo_dict_miss E url st Hc).
    destruct (get_chain E url); simpl; [by apply insert_subseteq | done].
Qed.

Ltac cache_grows_step :=
  repeat first [ apply cache_grows_fetch_data | apply cache_grows_get_evo_dict
               | apply cache_grows_get_key | apply cache_grows_py_index
               | apply cache_grows_writerow | apply cache_grows_ret
               | apply cache_grows_py_int_true_div
               | apply cache_grows_bind; intros ].

Lemma cache_grows_process_id E id : cache_grows (process_id E id).
Proof. unfold process_id. cache_grows_step. Qed.

(** C3: a lookup of a cached chain URL returns the stored mapping and
    touches neither the state nor the network; a lookup of an uncached URL
    fetches it once, parses it and stores the result under the URL; no step
    of the run removes or replaces a cache entry; over a whole run no chain
    URL is fetched twice, and after a successful run every fetched chain URL
    is cached. *)
Theorem evo_cache_fetch_at_most_once :
  (forall E url st d, evo_cache st !! url = Some d ->
     get_evo_dict E url st = (st, inr d)) /\
  (forall E url st, evo_cache st !! url = None ->
     get_evo_dict E url st =
       match get_chain E url with
       | Some c =>
           ({| evo_cache := <[url := parse_evolution_chain c]> (evo_cache st);
               fetch_log := fetch_log st ++ [FetchChain url];
               csv_rows := csv_rows st |}, inr (parse_evolution_chain c))
       | None =>
           ({| evo_cache := evo_cache st;
               fetch_log := fetch_log st ++ [FetchChain url];
               csv_rows := csv_rows st |}, inl (HTTPError url))
       end) /\
  (forall E id st, evo_cache st ⊆ evo_cache (process_id E id st).1) /\
  (forall E, NoDup (chain_fetches (fetch_log (run_main E).1))) /\
  (forall E st, run_main E = (st, inr tt) ->
     forall u, u ∈ chain_fetches (fetch_log st) -> is_Some (evo_cache st !! u)).
Proof.
  split; [exact get_evo_dict_hit|].
  split; [exact get_evo_dict_miss|].
  split; [intros E id st; apply cache_grows_process_id|].
  split.
  - intros E. apply (keeps_inv_main E initial_state cache_inv_initial).
  - intros E st Hrun. destruct (keeps_inv_main E initial_state cache_inv_initial) as [_ Hok].
    unfold run_main in Hrun. rewrite Hrun in Hok. simpl in Hok.
    by destruct (Hok tt eq_refl).
Qed.

Lemma evo_cache_fetch_at_most_once_witness :
  let url := "https://pokeapi.co/api/v2/evolution-chain/1/" in
  let st := {| evo_cache := {[ url := parse_evolution_chain bulbasaur_chain ]};
               fetch_log := [FetchChain url]; csv_rows := [] |} in
  evo_cache st !! url = Some (parse_evolution_chain bulbasaur_chain) /\
  get_evo_dict sample_env url st = (st, inr (parse_evolution_chain bulbasaur_chain)).
Proof.
  intros url st. split; [vm_compute; reflexivity|].
  apply (proj1 evo_cache_fetch_at_most_once). vm_compute. reflexivity.
Defined.

(* ------------------------------------------------------------------ *)
(** ** Running [process_id] step by step *)

Lemma bind_ok {A B} (m : M A) (k : A -> M B) st st1 x :
  m st = (st1, inr x) -> bind m k st = k x st1.
Proof. intros H. unfold bind. by rewrite H. Qed.

Lemma bind_err {A B} (m : M A) (k : A -> M B) st st1 e :
  m st = (st1, inl e) -> bind m k st = (st1, inl e).
Proof. intros H. unfold bind. by rewrite H. Qed.

Lemma bind_inr {A B} (m : M A) (k : A -> M B) st st' y :
  bind m k st = (st', inr y) ->
  exists st1 x, m st = (st1, inr x) /\ k x st1 = (st', inr y).
Proof.
  unfold bind. destruct (m st) as [st1 [e|x]]; [intros [=]|].
  intros H. by exists st1, x.
Qed.

Lemma fetch_data_ok {A} tag (api : string -> option A) url st x :
  api url = Some x ->
  fetch_data tag api url st =
    ({| evo_cache := evo_cache st; fetch_log := fetch_log st ++ [tag url];
        csv_rows := csv_rows st |}, inr x).
Proof. intros H. unfold fetch_data, bind, log_fetch. simpl. by rewrite H. Qed.

Lemma fetch_data_err {A} tag (api : string -> option A) url st :
  api url = None ->
  fetch_data tag api url st =
    ({| evo_cache := evo_cache st; fetch_log := fetch_log st ++ [tag url];
        csv_rows := csv_rows st |}, inl (HTTPError url)).
Proof. intros H. unfold fetch_data, bind, log_fetch. simpl. by rewrite H. Qed.

Lemma fetch_data_inr {A} tag (api : string -> option A) url st st1 x :
  fetch_data tag api url st = (st1, inr x) ->
  api url = Some x /\
  st1 = {| evo_cache := evo_cache st; fetch_log := fetch_log st ++ [tag url];
           csv_rows := csv_rows st |}.
Proof.
  destruct (api url) eqn:Ha.
  - rewrite (fetch_data_ok _ _ _ _ _ Ha). by intros [= -> ->].
  - rewrite (fetch_data_err _ _ _ _ Ha). by intros [=].
Qed.

Lemma get_key_inr {A} (d : gmap string A) k st st1 v :
  get_key d k st = (st1, inr v) -> d !! k = Some v /\ st1 = st.
Proof. unfold get_key. destruct (d !! k); [by intros [= -> ->] | by intros [=]]. Qed.

Lemma py_index_inr {A} (l : list A) i st st1 v :
  py_index l i st = (st1, inr v) -> l !! i = Some v /\ st1 = st.
Proof. unfold py_index. destruct (l !! i); [by intros [= -> ->] | by intros [=]]. Qed.

Lemma get_evo_dict_inr E url st st1 d :
  get_evo_dict E url st = (st1, inr d) ->
  evo_cache st1 !! url = Some d /\ csv_rows st1 = csv_rows st.
Proof.
  destruct (evo_cache st !! url) as [d'|] eqn:Hc.
  - rewrite (get_evo_dict_hit E url st d' Hc). by intros [= -> ->].
  - rewrite (get_evo_dict_miss E url st Hc).
    destruct (get_chain E url); [|by intros [=]].
    intros [= <- <-]. simpl. by rewrite lookup_insert_eq.
Qed.

Lemma writerow_inr r st st1 u :
  writerow r st = (st1, inr u) ->
  csv_rows st1 = csv_rows st ++
    [map (fun k => match assoc_lookup k r with Some v => v | None => CStr "" end) fieldnames].
Proof. unfold writerow. destruct existsb; [by intros [=]|]. by intros [= <- _]. Qed.

Lemma py_int_true_div_inr a b st st1 f :
  py_int_true_div a b st = (st1, inr f) -> int_true_div a b = f /\ st1 = st.
Proof.
  unfold py_int_true_div. destruct (int_true_div a b);
    first [by intros [= -> ->] | by intros [=]].
Qed.

Ltac invert_bind H :=
  let st := fresh "st" in let x := fresh "x" in let Hm := fresh "Hm" in
  apply bind_inr in H as (st & x & Hm & H); cbv beta zeta in H.

(** The row [process_id] writes when it succeeds. *)
Lemma process_id_row E id st st' u :
  process_id E id st = (st', inr u) ->
  exists p sp d type_primary hp attack defense special_attack special_defense speed,
    get_pokemon E (pokemon_url id) = Some p /\
    pk_types p !! 0 = Some type_primary /\
    dict_of_pairs (pk_stats p) !! "hp" = Some hp /\
    dict_of_pairs (pk_stats p) !! "attack" = Some attack /\
    dict_of_pairs (pk_stats p) !! "defense" = Some defense /\
    dict_of_pairs (pk_stats p) !! "special-attack" = Some special_attack /\
    dict_of_pairs (pk_stats p) !! "special-defense" = Some special_defense /\
    dict_of_pairs (pk_stats p) !! "speed" = Some speed /\
    get_species E (pk_species_url p) = Some sp /\
    evo_cache st' !! sp_evolution_chain_url sp = Some d /\
    csv_rows st' = csv_rows st ++
      [[CInt id; CInt id; CStr (pk_name p); CStr type_primary;
        CStr (if Nat.ltb 1 (length (pk_types p)) then nth 1 (pk_types p) "" else "");
        CInt hp; CInt attack; CInt defense; CInt special_attack;
        CInt special_defense; CInt speed;
        CFloat (int_true_div (pk_height p) 10); CFloat (int_true_div (pk_weight p) 10);
        CStr (find_description (sp_flavor_text_entries sp));
        CStr (render_from (evo_details_of d (pk_name p)));
        CStr (render_to (evo_details_of d (pk_name p)));
        option_cell (pk_image p)]].
Proof.
  intros H. unfold process_id in H.
  invert_bind H. apply fetch_data_inr in Hm as [Hp ->].
  invert_bind H. apply py_index_inr in Hm as [Ht ->].
  invert_bind H. apply get_key_inr in Hm as [Hhp ->].
  invert_bind H. apply get_key_inr in Hm as [Hat ->].
  invert_bind H. apply get_key_inr in Hm as [Hde ->].
  invert_bind H. apply get_key_inr in Hm as [Hsa ->].
  invert_bind H. apply get_key_inr in Hm as [Hsd ->].
  invert_bind H. apply get_key_inr in Hm as [Hsp ->].
  invert_bind H. apply py_int_true_div_inr in Hm as [<- ->].
  invert_bind H. apply py_int_true_div_inr in Hm as [<- ->].
  invert_bind H. apply fetch_data_inr in Hm as [Hs ->].
  invert_bind H. apply get_evo_dict_inr in Hm as [Hd Hrows].
  pose proof (writerow_inr _ _ _ _ H) as Hw.
  match type of H with
  | writerow _ ?s = _ => assert (evo_cache st' = evo_cache s) as Hc
  end.
  { revert H. unfold writerow. destruct existsb; [by intros [=]|]. by intros [= <- _]. }
  do 10 eexists.
  repeat (split; [eassumption|]).
  split; [by rewrite Hc|].
  rewrite Hw, Hrows. reflexivity.
Qed.

(* ------------------------------------------------------------------ *)
(** ** The CSV file *)

Lemma for_each_rows E ids :
  forall st st', for_each (process_id E) ids st = (st', inr tt) ->
  exists rows, csv_rows st' = csv_rows st ++ rows /\
    map (hd CNone) rows = map CInt ids /\
    Forall (fun r => length r = 17) rows.
Proof.
  induction ids as [|id ids IH]; intros st st' H.
  - simpl in H. injection H as <-. exists []. by rewrite app_nil_r.
  - simpl in H. invert_bind H. destruct x.
    destruct (process_id_row _ _ _ _ _ Hm)
      as (p & sp & d & t1 & s1 & s2 & s3 & s4 & s5 & s6 & _ & _ & _ & _ & _ & _ & _ & _ & _ & _ & Hrow).
    destruct (IH _ _ H) as (rows & Hr & Hids & Hlen).
    eexists (_ :: rows). split; [rewrite Hr, Hrow; by rewrite <- app_assoc|].
    split; [simpl; by rewrite Hids|].
    constructor; [reflexivity | exact Hlen].
Qed.

Lemma py_range_1_152 : py_range 1 152 = map (fun n => Z.of_nat n) (seq 1 151).
Proof. vm_compute. reflexivity. Qed.

(** C9: a run that completes writes first the header row [id, ...,
    image_url], then exactly one 17-cell row per id 1..151 in ascending
    order, each starting with its id. *)
Theorem csv_header_and_rows E st :
  run_main E = (st, inr tt) ->
  exists rows,
    csv_rows st =
      map CStr ["id"; "pokedex_number"; "name"; "type_primary"; "type_secondary";
                "hp"; "attack"; "defense"; "special_attack"; "special_defense"; "speed";
                "height"; "weight"; "description"; "evolution_from"; "evolution_to";
                "image_url"] :: rows /\
    map (hd CNone) rows = map (fun n => CInt (Z.of_nat n)) (seq 1 151) /\
    Forall (fun r => length r = 17) rows.
Proof.
  unfold run_main, main. intros H.
  rewrite (bind_ok _ _ _ {| evo_cache := ∅; fetch_log := [];
                            csv_rows := [map CStr fieldnames] |} tt) in H by reflexivity.
  destruct (for_each_rows _ _ _ _ H) as (rows & Hr & Hids & Hlen).
  exists rows. split; [exact Hr|]. split; [|exact Hlen].
  rewrite Hids, py_range_1_152, map_map. reflexivity.
Qed.

Lemma csv_header_and_rows_witness :
  run_main sample_env = ((run_main sample_env).1, inr tt) /\
  exists rows,
    csv_rows (run_main sample_env).1 =
      map CStr ["id"; "pokedex_number"; "name"; "type_primary"; "type_secondary";
                "hp"; "attack"; "defense"; "special_attack"; "special_defense"; "speed";
                "height"; "weight"; "description"; "evolution_from"; "evolution_to";
                "image_url"] :: rows /\
    map (hd CNone) rows = map (fun n => CInt (Z.of_nat n)) (seq 1 151) /\
    Forall (fun r => length r = 17) rows.
Proof.
  assert (run_main sample_env = ((run_main sample_env).1, inr tt)) as H
    by (vm_compute; reflexivity).
  split; [exact H|]. exact (csv_header_and_rows sample_env _ H).
Defined.

(* ------------------------------------------------------------------ *)
(** ** The description *)

Lemma string_app_nil_l (x : string) : ("" ++ x)%string = x.
Proof. reflexivity. Qed.

Lemma replace_newline_formfeed s :
  py_replace_char formfeed "" (py_replace_char newline " " s) = normalise s.
Proof.
  induction s as [|a s IH]; simpl; [done|].
  destruct (ascii_dec a newline) as [Hn|Hn]; simpl.
  - rewrite string_app_nil_l, IH. reflexivity.
  - destruct (ascii_dec a formfeed); simpl; rewrite ?string_app_nil_l, IH; reflexivity.
Qed.

Lemma en_red_blue_reflect e :
  (String.eqb (fe_language e) "en" && existsb (String.eqb (fe_version e)) ["red"; "blue"])
    = true <-> en_red_blue e.
Proof.
  unfold en_red_blue. simpl. rewrite andb_true_iff, orb_false_r, orb_true_iff.
  rewrite !String.eqb_eq. done.
Qed.

Lemma find_description_cons e rest :
  find_description (e :: rest) =
    if String.eqb (fe_language e) "en"
       && existsb (String.eqb (fe_version e)) ["red"; "blue"]
    then py_replace_char formfeed "" (py_replace_char newline " " (fe_text e))
    else find_description rest.
Proof. reflexivity. Qed.

Lemma find_description_first pre e post :
  Forall (fun x => ~ en_red_blue x) pre -> en_red_blue e ->
  find_description (pre ++ e :: post) = normalise (fe_text e).
Proof.
  induction pre as [|x pre IH]; intros Hpre He; simpl app; rewrite find_description_cons.
  - apply en_red_blue_reflect in He. rewrite He. apply replace_newline_formfeed.
  - apply Forall_cons in Hpre as [Hx Hpre].
    destruct (_ && _) eqn:Hm; [apply en_red_blue_reflect in Hm; contradiction|].
    by apply IH.
Qed.

Lemma find_description_none entries :
  Forall (fun x => ~ en_red_blue x) entries -> find_description entries = "".
Proof.
  induction entries as [|x xs IH]; intros H; [done|]. rewrite find_description_cons.
  apply Forall_cons in H as [Hx H].
  destruct (_ && _) eqn:Hm; [apply en_red_blue_reflect in Hm; contradiction|].
  by apply IH.
Qed.

(** Case split on the first step of a [bind] chain run on both sides of an
    equation, rewriting both sides with its outcome. *)
Ltac split_bind :=
  match goal with
  | |- context [bind ?m ?k ?st] =>
      lazymatch m with fetch_data FetchSpecies _ _ => fail | _ => idtac end;
      let Hm := fresh "Hm" in
      destruct (m st) as [? [?|?]] eqn:Hm;
      [rewrite !(bind_err _ _ _ _ _ Hm) | rewrite !(bind_ok _ _ _ _ _ Hm)];
      cbv beta zeta
  end.

(** Flavor-text entries never decide whether [process_id] raises. *)
Lemma process_id_outcome_entries f E id st :
  (process_id (with_entries f E) id st).2 = (process_id E id st).2.
Proof.
  unfold process_id.
  change (get_pokemon (with_entries f E)) with (get_pokemon E).
  repeat split_bind; try reflexivity.
  match goal with
  | |- context [bind (fetch_data FetchSpecies (get_species E) ?u) _ ?s] =>
      destruct (get_species E u) as [sp|] eqn:Hs;
      [ rewrite (bind_ok _ _ _ _ _ (fetch_data_ok FetchSpecies (get_species E) u s sp Hs));
        assert (get_species (with_entries f E) u =
                  Some {| sp_flavor_text_entries := f u sp;
                          sp_evolution_chain_url := sp_evolution_chain_url sp |}) as Hs'
          by (simpl; by rewrite Hs);
        rewrite (bind_ok _ _ _ _ _ (fetch_data_ok FetchSpecies _ u s _ Hs'))
      | rewrite (bind_err _ _ _ _ _ (fetch_data_err FetchSpecies (get_species E) u s Hs));
        assert (get_species (with_entries f E) u = None) as Hs'
          by (simpl; by rewrite Hs);
        rewrite (bind_err _ _ _ _ _ (fetch_data_err FetchSpecies _ u s Hs'));
        reflexivity ]
  end.
  cbv beta zeta. cbn [sp_evolution_chain_url sp_flavor_text_entries].
  change (get_evo_dict (with_entries f E)) with (get_evo_dict E).
  repeat split_bind; reflexivity.
Qed.

(** C5: the description is the flavor text of the first English Red/Blue
    entry with each newline turned into a space and each form feed
    dropped; it is [""] when no entry qualifies; the entries never decide
    whether the record is built; and the row written carries it. *)
Theorem description_first_en_red_blue :
  (forall pre e post,
     Forall (fun x => ~ en_red_blue x) pre -> en_red_blue e ->
     find_description (pre ++ e :: post) = normalise (fe_text e)) /\
  (forall entries,
     Forall (fun x => ~ en_red_blue x) entries -> find_description entries = "") /\
  (forall f E id st,
     (process_id (with_entries f E) id st).2 = (process_id E id st).2) /\
  (forall E id st st' u, process_id E id st = (st', inr u) ->
     exists p sp row,
       get_pokemon E (pokemon_url id) = Some p /\
       get_species E (pk_species_url p) = Some sp /\
       csv_rows st' = csv_rows st ++ [row] /\
       row !! 13 = Some (CStr (find_description (sp_flavor_text_entries sp)))).
Proof.
  split; [exact find_description_first|].
  split; [exact find_description_none|].
  split; [exact process_id_outcome_entries|].
  intros E id st st' u H.
  destruct (process_id_row _ _ _ _ _ H)
    as (p & sp & d & t1 & s1 & s2 & s3 & s4 & s5 & s6 & Hp & _ & _ & _ & _ & _ & _ & _ & Hs & _ & Hrow).
  eexists p, sp, _. split; [exact Hp|]. split; [exact Hs|]. split; [exact Hrow|].
  reflexivity.
Qed.

Lemma description_first_en_red_blue_witness :
  let de := {| fe_text := "Ein Samen"; fe_language := "de"; fe_version := "red" |} in
  let en := {| fe_text := String newline (String formfeed "seed");
               fe_language := "en"; fe_version := "blue" |} in
  let later := {| fe_text := "other"; fe_language := "en"; fe_version := "red" |} in
  Forall (fun x => ~ en_red_blue x) [de] /\ en_red_blue en /\
  find_description ([de] ++ en :: [later]) = normalise (fe_text en) /\
  normalise (fe_text en) = " seed".
Proof.
  intros de en later.
  assert (Forall (fun x => ~ en_red_blue x) [de]) as H1.
  { constructor; [|constructor]. intros [Hl _]. discriminate. }
  assert (en_red_blue en) as H2 by (split; [reflexivity | right; reflexivity]).
  split; [exact H1|]. split; [exact H2|]. split.
  - exact (proj1 description_first_en_red_blue [de] en [later] H1 H2).
  - vm_compute. reflexivity.
Defined.

(* ------------------------------------------------------------------ *)
(** ** Evolution columns *)

Lemma py_join_concat sep l : py_join sep l = String.concat sep l.
Proof.
  induction l as [|x [|y l] IH]; [done | done |].
  simpl in *. by rewrite IH.
Qed.

Lemma render_to_concat e : render_to e = String.concat ", " (evo_to e).
Proof. unfold render_to. destruct (evo_to e) as [|x l]; [done|]. apply py_join_concat. Qed.

Lemma render_from_option e :
  render_from e = match evo_from e with Some s => s | None => "" end.
Proof.
  unfold render_from. destruct (evo_from e) as [s|]; [|done].
  destruct (String.eqb_spec s ""); congruence.
Qed.

(** The chain payloads never decide whether [process_id] raises, only
    whether they can be fetched. *)
Lemma process_id_outcome_chains g E id st :
  (forall u, is_Some (g u) <-> is_Some (get_chain E u)) ->
  (process_id (with_chains g E) id st).2 = (process_id E id st).2.
Proof.
  intros Hg. unfold process_id.
  change (get_pokemon (with_chains g E)) with (get_pokemon E).
  change (get_species (with_chains g E)) with (get_species E).
  repeat split_bind; try reflexivity.
  match goal with
  | |- context [bind (fetch_data FetchSpecies (get_species E) ?u) _ ?s] =>
      destruct (get_species E u) as [sp|] eqn:Hs;
      [ rewrite !(bind_ok _ _ _ _ _ (fetch_data_ok FetchSpecies (get_species E) u s sp Hs))
      | rewrite !(bind_err _ _ _ _ _ (fetch_data_err FetchSpecies (get_species E) u s Hs));
        reflexivity ]
  end.
  cbv beta zeta.
  match goal with
  | |- context [bind (get_evo_dict E ?u) _ ?s] =>
      destruct (evo_cache s !! u) as [d|] eqn:Hc;
      [ rewrite !(bind_ok _ _ _ _ _ (get_evo_dict_hit _ u s d Hc)); reflexivity
      | pose proof (get_evo_dict_miss E u s Hc) as Hmiss1;
        pose proof (get_evo_dict_miss (with_chains g E) u s Hc) as Hmiss2;
        change (get_chain (with_chains g E) u) with (g u) in Hmiss2;
        specialize (Hg u);
        destruct (g u) as [c1|] eqn:Hgu, (get_chain E u) as [c2|] eqn:Hcu;
        [ rewrite (bind_ok _ _ _ _ _ Hmiss1), (bind_ok _ _ _ _ _ Hmiss2); reflexivity
        | exfalso; destruct Hg as [Hg1 _]; destruct (Hg1 ltac:(eexists; reflexivity)) as [? [=]]
        | exfalso; destruct Hg as [_ Hg2]; destruct (Hg2 ltac:(eexists; reflexivity)) as [? [=]]
        | rewrite (bind_err _ _ _ _ _ Hmiss1), (bind_err _ _ _ _ _ Hmiss2); reflexivity ] ]
  end.
Qed.

(** C7: a species missing from its chain's mapping gets the default
    details and empty evolution columns; what the chain holds never decides
    whether the record is built. *)
Theorem evo_details_absent_default :
  (forall (d : gmap string evo_entry) name, d !! name = None ->
     evo_details_of d name = {| evo_from := None; evo_to := [] |} /\
     render_from (evo_details_of d name) = "" /\
     render_to (evo_details_of d name) = "") /\
  (forall g E id st, (forall u, is_Some (g u) <-> is_Some (get_chain E u)) ->
     (process_id (with_chains g E) id st).2 = (process_id E id st).2) /\
  (forall E id st st' u, process_id E id st = (st', inr u) ->
     exists p sp d row,
       get_pokemon E (pokemon_url id) = Some p /\
       get_species E (pk_species_url p) = Some sp /\
       evo_cache st' !! sp_evolution_chain_url sp = Some d /\
       csv_rows st' = csv_rows st ++ [row] /\
       (d !! pk_name p = None ->
        row !! 14 = Some (CStr "") /\ row !! 15 = Some (CStr ""))).
Proof.
  split; [|split].
  - intros d name H. unfold evo_details_of. rewrite H. done.
  - exact process_id_outcome_chains.
  - intros E id st st' u H.
    destruct (process_id_row _ _ _ _ _ H)
      as (p & sp & d & t1 & s1 & s2 & s3 & s4 & s5 & s6 & Hp & _ & _ & _ & _ & _ & _ & _ & Hs & Hd & Hrow).
    eexists p, sp, d, _. do 4 (split; [eassumption|]).
    intros Hn. unfold evo_details_of. rewrite Hn. done.
Qed.

Lemma evo_details_absent_default_witness :
  run_main other_chain_env = ((run_main other_chain_env).1, inr tt) /\
  process_id other_chain_env 1 initial_state =
    ((process_id other_chain_env 1 initial_state).1, inr tt) /\
  (exists p sp d row,
     get_pokemon other_chain_env (pokemon_url 1) = Some p /\
     get_species other_chain_env (pk_species_url p) = Some sp /\
     evo_cache (process_id other_chain_env 1 initial_state).1 !! sp_evolution_chain_url sp
       = Some d /\
     csv_rows (process_id other_chain_env 1 initial_state).1 = csv_rows initial_state ++ [row] /\
     (d !! pk_name p = None -> row !! 14 = Some (CStr "") /\ row !! 15 = Some (CStr ""))).
Proof.
  assert (process_id other_chain_env 1 initial_state =
            ((process_id other_chain_env 1 initial_state).1, inr tt)) as H
    by (vm_compute; reflexivity).
  split; [vm_compute; reflexivity|]. split; [exact H|].
  exact (proj2 (proj2 evo_details_absent_default) _ _ _ _ _ H).
Defined.

(** C8: the "to" column is the successors joined by ", " in mapping order
    ([""] for none), the "from" column is the predecessor ([""] for none),
    and these are the cells of the row written. *)
Theorem evolution_columns_rendering :
  (forall e, render_to e = String.concat ", " (evo_to e)) /\
  (forall e, evo_to e = [] -> render_to e = "") /\
  (forall e, render_from e = match evo_from e with Some s => s | None => "" end) /\
  (forall E id st st' u, process_id E id st = (st', inr u) ->
     exists p sp d row,
       get_pokemon E (pokemon_url id) = Some p /\
       get_species E (pk_species_url p) = Some sp /\
       evo_cache st' !! sp_evolution_chain_url sp = Some d /\
       csv_rows st' = csv_rows st ++ [row] /\
       row !! 14 = Some (CStr (match evo_from (evo_details_of d (pk_name p)) with
                               | Some s => s | None => "" end)) /\
       row !! 15 = Some (CStr (String.concat ", " (evo_to (evo_details_of d (pk_name p)))))).
Proof.
  split; [exact render_to_concat|].
  split; [intros e He; unfold render_to; by rewrite He|].
  split; [exact render_from_option|].
  intros E id st st' u H.
  destruct (process_id_row _ _ _ _ _ H)
    as (p & sp & d & t1 & s1 & s2 & s3 & s4 & s5 & s6 & Hp & _ & _ & _ & _ & _ & _ & _ & Hs & Hd & Hrow).
  eexists p, sp, d, _. do 4 (split; [eassumption|]).
  simpl. by rewrite render_from_option, render_to_concat.
Qed.

Lemma evolution_columns_rendering_witness :
  let e := {| evo_from := Some "eevee"; evo_to := ["vaporeon"; "jolteon"; "flareon"] |} in
  evo_to e <> [] /\ render_to e = String.concat ", " (evo_to e) /\
  render_to e = "vaporeon, jolteon, flareon" /\
  process_id sample_env 2 initial_state = ((process_id sample_env 2 initial_state).1, inr tt) /\
  (exists p sp d row,
     get_pokemon sample_env (pokemon_url 2) = Some p /\
     get_species sample_env (pk_species_url p) = Some sp /\
     evo_cache (process_id sample_env 2 initial_state).1 !! sp_evolution_chain_url sp = Some d /\
     csv_rows (process_id sample_env 2 initial_state).1 = csv_rows initial_state ++ [row] /\
     row !! 14 = Some (CStr (match evo_from (evo_details_of d (pk_name p)) with
                             | Some s => s | None => "" end)) /\
     row !! 15 = Some (CStr (String.concat ", " (evo_to (evo_details_of d (pk_name p)))))).
Proof.
  intros e.
  assert (process_id sample_env 2 initial_state =
            ((process_id sample_env 2 initial_state).1, inr tt)) as H
    by (vm_compute; reflexivity).
  split; [discriminate|]. split; [exact (proj1 evolution_columns_rendering e)|].
  split; [vm_compute; reflexivity|]. split; [exact H|].
  exact (proj2 (proj2 (proj2 evolution_columns_rendering)) _ _ _ _ _ H).
Defined.

(* ------------------------------------------------------------------ *)
(** ** Types and stats *)

Lemma get_key_ok {A} (d : gmap string A) k v st :
  d !! k = Some v -> get_key d k st = (st, inr v).
Proof. intros H. unfold get_key. by rewrite H. Qed.

Lemma get_key_err {A} (d : gmap string A) k st :
  d !! k = None -> get_key d k st = (st, inl (KeyError k)).
Proof. intros H. unfold get_key. by rewrite H. Qed.

Lemma process_id_no_types E id st p :
  get_pokemon E (pokemon_url id) = Some p -> pk_types p = [] ->
  process_id E id st =
    ({| evo_cache := evo_cache st;
        fetch_log := fetch_log st ++ [FetchPokemon (pokemon_url id)];
        csv_rows := csv_rows st |}, inl IndexError).
Proof.
  intros Hp Ht. unfold process_id.
  rewrite (bind_ok _ _ _ _ _ (fetch_data_ok _ _ _ _ _ Hp)). cbv beta zeta.
  unfold py_index at 1. rewrite Ht. reflexivity.
Qed.

(** C10: with no types the record fails at [types[0]] with an [IndexError],
    after the Pokémon fetch and before anything else; a written row has the
    first type as primary and the second, or [""], as secondary. *)
Theorem type_extraction :
  (forall E id st p,
     get_pokemon E (pokemon_url id) = Some p -> pk_types p = [] ->
     process_id E id st =
       ({| evo_cache := evo_cache st;
           fetch_log := fetch_log st ++ [FetchPokemon (pokemon_url id)];
           csv_rows := csv_rows st |}, inl IndexError)) /\
  (forall E id st st' u, process_id E id st = (st', inr u) ->
     exists p t rest row,
       get_pokemon E (pokemon_url id) = Some p /\
       pk_types p = t :: rest /\
       csv_rows st' = csv_rows st ++ [row] /\
       row !! 3 = Some (CStr t) /\
       row !! 4 = Some (CStr (match rest with t2 :: _ => t2 | [] => "" end))).
Proof.
  split.
  - exact process_id_no_types.
  - intros E id st st' u H.
    destruct (process_id_row _ _ _ _ _ H)
      as (p & sp & d & t1 & s1 & s2 & s3 & s4 & s5 & s6 & Hp & Ht & _ & _ & _ & _ & _ & _ & _ & _ & Hrow).
    destruct (pk_types p) as [|t rest] eqn:Htypes; [discriminate|].
    simpl in Ht. injection Ht as <-.
    eexists p, t, rest, _. split; [exact Hp|]. split; [done|]. split; [exact Hrow|].
    split; [reflexivity|]. simpl.
    destruct rest as [|t2 rest]; reflexivity.
Qed.

Lemma type_extraction_witness :
  let E := {| get_pokemon := fun _ => Some no_types_pokemon;
              get_species := get_species sample_env;
              get_chain := get_chain sample_env |} in
  get_pokemon E (pokemon_url 1) = Some no_types_pokemon /\ pk_types no_types_pokemon = [] /\
  process_id E 1 initial_state =
    ({| evo_cache := evo_cache initial_state;
        fetch_log := fetch_log initial_state ++ [FetchPokemon (pokemon_url 1)];
        csv_rows := csv_rows initial_state |}, inl IndexError).
Proof.
  intros E. split; [reflexivity|]. split; [reflexivity|].
  apply (proj1 type_extraction E 1%Z initial_state no_types_pokemon); reflexivity.
Defined.

Lemma dict_of_pairs_absent {A} (l : list (string * A)) k :
  k ∉ map fst l -> dict_of_pairs l !! k = None.
Proof.
  unfold dict_of_pairs.
  assert (forall m : gmap string A, k ∉ map fst l ->
            foldl (fun d kv => <[kv.1 := kv.2]> d) m l !! k = m !! k) as Hgen.
  { induction l as [|[k' v] l IH]; intros m Hk; simpl; [done|].
    simpl in Hk. apply not_elem_of_cons in Hk as [Hne Hk].
    rewrite IH by done. by rewrite lookup_insert_ne. }
  intros Hk. rewrite Hgen by done. apply lookup_empty.
Qed.

Lemma for_each_abort (f : Z -> M unit) i ids :
  i ∈ ids -> (forall st, exists e, (f i st).2 = inl e) ->
  forall st, exists e, (for_each f ids st).2 = inl e.
Proof.
  intros Hin Hf. induction ids as [|x ids IH]; [by apply elem_of_nil in Hin|].
  intros st. simpl. unfold bind.
  apply elem_of_cons in Hin as [-> | Hin].
  - destruct (Hf st) as [e He]. destruct (f x st) as [st1 [e'|[]]]; simpl in He; [|discriminate].
    by exists e'.
  - destruct (f x st) as [st1 [e'|[]]]; [by exists e' | by apply IH].
Qed.

Ltac stat_step d key :=
  let Hk := fresh "Hk" in
  destruct (d !! key) as [?|] eqn:Hk;
  [ rewrite (bind_ok _ _ _ _ _ (get_key_ok _ _ _ _ Hk)); cbv beta zeta
  | exists key; split; [by apply (bool_decide_unpack _)|]; split; [done|];
    rewrite (bind_err _ _ _ _ _ (get_key_err _ _ _ Hk)); reflexivity ].

Lemma process_id_missing_stat E id st p :
  get_pokemon E (pokemon_url id) = Some p -> pk_types p <> [] ->
  (exists k, k ∈ required_stats /\ dict_of_pairs (pk_stats p) !! k = None) ->
  exists k, k ∈ required_stats /\ dict_of_pairs (pk_stats p) !! k = None /\
    process_id E id st =
      ({| evo_cache := evo_cache st;
          fetch_log := fetch_log st ++ [FetchPokemon (pokemon_url id)];
          csv_rows := csv_rows st |}, inl (KeyError k)).
Proof.
  intros Hp Ht [k0 [Hk0 Hd0]]. unfold process_id.
  rewrite (bind_ok _ _ _ _ _ (fetch_data_ok _ _ _ _ _ Hp)). cbv beta zeta.
  destruct (pk_types p) as [|t rest] eqn:Htypes; [done|].
  rewrite (bind_ok _ _ _ _ t (eq_refl : py_index (t :: rest) 0 _ = (_, inr t))).
  cbv beta zeta.
  set (d := dict_of_pairs (pk_stats p)) in *.
  stat_step d "hp". stat_step d "attack". stat_step d "defense".
  stat_step d "special-attack". stat_step d "special-defense". stat_step d "speed".
  exfalso. unfold required_stats in Hk0.
  repeat (apply elem_of_cons in Hk0 as [-> | Hk0]; [congruence|]).
  by apply elem_of_nil in Hk0.
Qed.

Lemma dict_of_pairs_present {A} (l : list (string * A)) k :
  k ∈ map fst l -> is_Some (dict_of_pairs l !! k).
Proof.
  unfold dict_of_pairs.
  assert (forall m : gmap string A, (is_Some (m !! k) \/ k ∈ map fst l) ->
            is_Some (foldl (fun d kv => <[kv.1 := kv.2]> d) m l !! k)) as Hgen.
  { induction l as [|[k' v] l IH]; intros m Hk; simpl in *.
    - destruct Hk as [Hk|Hk]; [done | by apply elem_of_nil in Hk].
    - apply IH. destruct (decide (k = k')) as [->|Hne].
      + left. by rewrite lookup_insert_eq.
      + rewrite lookup_insert_ne by done.
        destruct Hk as [Hk|Hk]; [by left|].
        apply elem_of_cons in Hk as [Hk|Hk]; [done | by right]. }
  intros Hk. apply Hgen. by right.
Qed.

(** C6: when a Pokémon payload lacks one of the six stats, building its
    record raises a [KeyError] for a missing stat right after the Pokémon
    fetch (with no types, the [IndexError] of C10 comes first), writing no
    row; and a run whose ids include it ends in an exception. *)
Theorem missing_stat_aborts :
  (forall E id st p,
     get_pokemon E (pokemon_url id) = Some p -> pk_types p <> [] ->
     (exists k, k ∈ required_stats /\ k ∉ map fst (pk_stats p)) ->
     exists k, k ∈ required_stats /\ (k ∉ map fst (pk_stats p)) /\
       process_id E id st =
         ({| evo_cache := evo_cache st;
             fetch_log := fetch_log st ++ [FetchPokemon (pokemon_url id)];
             csv_rows := csv_rows st |}, inl (KeyError k))) /\
  (forall E id p,
     id ∈ py_range 1 152 -> get_pokemon E (pokemon_url id) = Some p ->
     (exists k, k ∈ required_stats /\ k ∉ map fst (pk_stats p)) ->
     exists e, (run_main E).2 = inl e).
Proof.
  split.
  - intros E id st p Hp Ht [k0 [Hk0 Hn0]].
    destruct (process_id_missing_stat E id st p Hp Ht) as (k & Hk & Hd & Hrun).
    { exists k0. split; [done|]. by apply dict_of_pairs_absent. }
    exists k. split; [done|]. split; [|done].
    intros Hin. destruct (dict_of_pairs_present _ _ Hin) as [w Hw]. congruence.
  - intros E i p Hi Hp [k0 [Hk0 Hn0]].
    assert (forall st, exists e, (process_id E i st).2 = inl e) as Hfail.
    { intros st. destruct (decide (pk_types p = [])) as [Ht|Ht].
      + rewrite (process_id_no_types E i st p Hp Ht). by eexists.
      + destruct (process_id_missing_stat E i st p Hp Ht) as (k & _ & _ & Hrun).
        { exists k0. split; [done|]. by apply dict_of_pairs_absent. }
        rewrite Hrun. by eexists. }
    unfold run_main, main.
    rewrite (bind_ok _ _ _ {| evo_cache := ∅; fetch_log := [];
                              csv_rows := [map CStr fieldnames] |} tt) by reflexivity.
    exact (for_each_abort _ i _ Hi Hfail _).
Qed.

Lemma missing_stat_aborts_witness :
  let E := {| get_pokemon := fun _ => Some no_speed_pokemon;
              get_species := get_species sample_env;
              get_chain := get_chain sample_env |} in
  (exists k, k ∈ required_stats /\ k ∉ map fst (pk_stats no_speed_pokemon)) /\
  (exists k, k ∈ required_stats /\ (k ∉ map fst (pk_stats no_speed_pokemon)) /\
     process_id E 1%Z initial_state =
       ({| evo_cache := evo_cache initial_state;
           fetch_log := fetch_log initial_state ++ [FetchPokemon (pokemon_url 1%Z)];
           csv_rows := csv_rows initial_state |}, inl (KeyError k))) /\
  (exists e, (run_main E).2 = inl e).
Proof.
  intros E.
  assert (exists k, k ∈ required_stats /\ k ∉ map fst (pk_stats no_speed_pokemon)) as Hk.
  { exists "speed". split; apply (bool_decide_unpack _); vm_compute; reflexivity. }
  split; [exact Hk|]. split.
  - apply (proj1 missing_stat_aborts E 1%Z initial_state no_speed_pokemon);
      [reflexivity | discriminate | exact Hk].
  - apply (proj2 missing_stat_aborts E 1%Z no_speed_pokemon);
      [apply (bool_decide_unpack _); vm_compute; reflexivity | reflexivity | exact Hk].
Defined.

(* ------------------------------------------------------------------ *)
(** ** Heights and weights *)

Lemma nearest_division_check_spec n start raw :
  nearest_division_check n start = true ->
  (start <= raw < start + Z.of_nat n)%Z ->
  nearest_double (int_true_div raw 10) (Qmake raw 10) = true.
Proof.
  revert start. induction n as [|n IH]; intros start Hc Hr; [lia|].
  simpl in Hc. apply andb_true_iff in Hc as [H0 Hc].
  destruct (Z.eq_dec raw start) as [->|Hne]; [exact H0|].
  apply (IH (Z.succ start) Hc). lia.
Qed.

(** C4: a completed id writes as [height] and [weight] the Python floats
    [raw / 10], the doubles nearest the exact quotients (so the quotient
    itself whenever it is a double): raw height 7 gives the double of the
    literal [0.7], 6305039478318694 * 2^-53, and raw weight 69 that of
    [6.9], 7768709357214106 * 2^-50.  The rounding is checked to be the
    nearest one for every raw value from 0 to 65535. *)
Theorem height_weight_conversion :
  (forall E id st st' u, process_id E id st = (st', inr u) ->
     exists p row,
       get_pokemon E (pokemon_url id) = Some p /\
       csv_rows st' = csv_rows st ++ [row] /\
       row !! 11 = Some (CFloat (int_true_div (pk_height p) 10)) /\
       row !! 12 = Some (CFloat (int_true_div (pk_weight p) 10)) /\
       (pk_height p = 7%Z ->
          row !! 11 = Some (CFloat (S754_finite false 6305039478318694 (-53)))) /\
       (pk_weight p = 69%Z ->
          row !! 12 = Some (CFloat (S754_finite false 7768709357214106 (-50))))) /\
  (forall raw, (0 <= raw < 65536)%Z ->
     nearest_double (int_true_div raw 10) (Qmake raw 10) = true).
Proof.
  split.
  - intros E id st st' u H.
    destruct (process_id_row _ _ _ _ _ H)
      as (p & sp & d & t1 & s1 & s2 & s3 & s4 & s5 & s6
          & Hp & _ & _ & _ & _ & _ & _ & _ & _ & _ & Hrow).
    eexists p, _. split; [exact Hp|]. split; [exact Hrow|].
    split; [reflexivity|]. split; [reflexivity|].
    split; intros Hv; rewrite Hv; reflexivity.
  - intros raw Hr.
    assert (nearest_division_check (Z.to_nat 65536) 0 = true) as Hc
      by (vm_compute; reflexivity).
    apply (nearest_division_check_spec _ _ _ Hc). lia.
Qed.

Lemma height_weight_conversion_witness :
  process_id sample_env 1 initial_state = ((process_id sample_env 1 initial_state).1, inr tt) /\
  (0 <= 7 < 65536)%Z /\
  (exists p row,
     get_pokemon sample_env (pokemon_url 1) = Some p /\
     csv_rows (process_id sample_env 1 initial_state).1 = csv_rows initial_state ++ [row] /\
     row !! 11 = Some (CFloat (int_true_div (pk_height p) 10)) /\
     row !! 12 = Some (CFloat (int_true_div (pk_weight p) 10)) /\
     (pk_height p = 7%Z ->
        row !! 11 = Some (CFloat (S754_finite false 6305039478318694 (-53)))) /\
     (pk_weight p = 69%Z ->
        row !! 12 = Some (CFloat (S754_finite false 7768709357214106 (-50))))) /\
  nearest_double (int_true_div 7 10) (Qmake 7 10) = true.
Proof.
  assert (process_id sample_env 1 initial_state
            = ((process_id sample_env 1 initial_state).1, inr tt)) as H1
    by (vm_compute; reflexivity).
  assert ((0 <= 7 < 65536)%Z) as H2 by lia.
  split; [exact H1|]. split; [exact H2|]. split.
  - exact (proj1 height_weight_conversion _ _ _ _ _ H1).
  - exact (proj2 height_weight_conversion 7%Z H2).
Defined.

(* ================================================================== *)
(** * Further properties of the script *)

(* ------------------------------------------------------------------ *)
(** ** The parser on arbitrary trees *)

Lemma append_to_keys k x d k' :
  is_Some (append_to k x d !! k') <-> is_Some (d !! k').
Proof.
  unfold append_to. destruct (d !! k) as [e|] eqn:He; [|done].
  destruct (decide (k' = k)) as [->|Hne].
  - rewrite lookup_insert_eq, He. split; intros _; by eexists.
  - by rewrite lookup_insert_ne.
Qed.

Lemma recurse_chain_keys t :
  forall p s k, is_Some (pdict (recurse_chain t p s) !! k) <->
                is_Some (pdict s !! k) \/ k ∈ names t.
Proof.
  induction t as [name kids IH] using node_ind'.
  intros p s k. rewrite names_Node, recurse_chain_Node.
  assert (forall s0 : parse_state,
            is_Some (pdict (kids_loop name kids s0) !! k) <->
            is_Some (pdict s0 !! k) \/ k ∈ flat_map names kids) as Hloop.
  { clear p s. induction IH as [|c cs Hc _ IHcs]; intros s0; simpl.
    - split; [by left | intros [H|H]; [done | by apply elem_of_nil in H]].
    - rewrite IHcs, Hc. simpl. rewrite append_to_keys, elem_of_app. tauto. }
  rewrite Hloop. simpl. rewrite elem_of_cons.
  destruct (decide (k = name)) as [->|Hne].
  - rewrite lookup_insert_eq. split; [intros _; by right; left | intros _; by left; eexists].
  - rewrite lookup_insert_ne by done. tauto.
Qed.

(** The keys of [parse_evolution_chain] are exactly the species names of
    the tree, repeated names or not. *)
Theorem parse_evolution_chain_keys (c : chain_payload) k :
  is_Some (parse_evolution_chain c !! k) <-> k ∈ names (chain c).
Proof.
  unfold parse_evolution_chain, run_parse. rewrite recurse_chain_keys.
  simpl. rewrite lookup_empty. split; [intros [[? [=]]|H]; done | by right].
Qed.

(** [recurse_chain] is called exactly once per node, in depth-first
    pre-order, repeated names or not. *)
Theorem parse_evolution_chain_visits (c : chain_payload) :
  visited (run_parse c) = preorder (chain c).
Proof. unfold run_parse. by rewrite recurse_chain_visited. Qed.

(* ------------------------------------------------------------------ *)
(** ** The stats dict *)

Lemma foldl_insert_absent {A} (l : list (string * A)) k (m : gmap string A) :
  (k ∉ map fst l) -> foldl (fun d kv => <[kv.1 := kv.2]> d) m l !! k = m !! k.
Proof.
  revert m. induction l as [|[k' v] l IH]; intros m Hk; simpl; [done|].
  simpl in Hk. apply not_elem_of_cons in Hk as [Hne Hk].
  rewrite IH by done. by rewrite lookup_insert_ne.
Qed.

(** [{s["stat"]["name"]: s["base_stat"] for s in stats}]: a name maps to
    the value of its last occurrence in the list. *)
Theorem dict_of_pairs_last {A} (l : list (string * A)) k v :
  dict_of_pairs l !! k = Some v <->
  exists l1 l2, l = l1 ++ (k, v) :: l2 /\ k ∉ map fst l2.
Proof.
  unfold dict_of_pairs. split.
  - induction l as [|[k' v'] l IH] using rev_ind; intros H.
    + simpl in H. by rewrite lookup_empty in H.
    + rewrite foldl_app in H. simpl in H.
      destruct (decide (k = k')) as [->|Hne].
      * rewrite lookup_insert_eq in H. injection H as ->.
        exists l, []. split; [done | apply not_elem_of_nil].
      * rewrite lookup_insert_ne in H by done.
        destruct (IH H) as (l1 & l2 & -> & Hk).
        exists l1, (l2 ++ [(k', v')]). split; [by rewrite <- app_assoc|].
        rewrite map_app. simpl. apply not_elem_of_app. split; [done|].
        apply not_elem_of_cons. split; [done | apply not_elem_of_nil].
  - intros (l1 & l2 & -> & Hk).
    rewrite foldl_app. simpl. rewrite foldl_insert_absent by done.
    apply lookup_insert_eq.
Qed.

Lemma dict_of_pairs_last_witness :
  (exists l1 l2, [("hp", 1%Z); ("speed", 5%Z); ("hp", 2%Z)] = l1 ++ ("hp", 2%Z) :: l2 /\
                 "hp" ∉ map fst l2) /\
  dict_of_pairs [("hp", 1%Z); ("speed", 5%Z); ("hp", 2%Z)] !! "hp" = Some 2%Z.
Proof.
  assert (exists l1 l2, [("hp", 1%Z); ("speed", 5%Z); ("hp", 2%Z)] = l1 ++ ("hp", 2%Z) :: l2 /\
                        "hp" ∉ map fst l2) as H.
  { exists [("hp", 1%Z); ("speed", 5%Z)], []. split; [reflexivity | apply not_elem_of_nil]. }
  split; [exact H|]. apply (proj2 (dict_of_pairs_last _ _ _) H).
Defined.

(* ------------------------------------------------------------------ *)
(** ** The description *)

Lemma list_ascii_of_string_app (s1 s2 : string) :
  list_ascii_of_string (s1 ++ s2)%string = list_ascii_of_string s1 ++ list_ascii_of_string s2.
Proof. induction s1 as [|a s1 IH]; simpl; [done|]. by rewrite IH. Qed.

Lemma normalise_no_control s :
  (newline ∉ list_ascii_of_string (normalise s)) /\
  (formfeed ∉ list_ascii_of_string (normalise s)).
Proof.
  induction s as [|a s [IH1 IH2]]; simpl.
  - split; apply not_elem_of_nil.
  - destruct (ascii_dec a newline) as [->|Hn];
      [|destruct (ascii_dec a formfeed) as [->|Hf]]; simpl; [| done |];
      split; intros Hin; apply elem_of_cons in Hin as [Heq|Hin]; try contradiction;
      try discriminate; congruence.
Qed.

(** No description ever contains a newline or a form feed. *)
Theorem find_description_no_control entries :
  (newline ∉ list_ascii_of_string (find_description entries)) /\
  (formfeed ∉ list_ascii_of_string (find_description entries)).
Proof.
  induction entries as [|e rest IH]; [split; apply not_elem_of_nil|].
  rewrite find_description_cons. destruct (_ && _); [|done].
  rewrite replace_newline_formfeed. apply normalise_no_control.
Qed.

(* ------------------------------------------------------------------ *)
(** ** Invariants of the state *)

Lemma preserves_bind {A B} P (m : M A) (k : A -> M B) :
  preserves P m -> (forall x, preserves P (k x)) -> preserves P (bind m k).
Proof.
  intros Hm Hk st Hst. unfold bind. specialize (Hm st Hst).
  destruct (m st) as [st1 [e|x]]; simpl in *; [done|]. by apply Hk.
Qed.

Lemma preserves_ret {A} P (x : A) : preserves P (ret x).
Proof. by intros st. Qed.

Lemma preserves_raise {A} P e : preserves P (@raise A e).
Proof. by intros st. Qed.

Lemma preserves_get_key {A} P (d : gmap string A) k : preserves P (get_key d k).
Proof. unfold get_key. destruct (d !! k); [apply preserves_ret | apply preserves_raise]. Qed.

Lemma preserves_py_index {A} P (l : list A) i : preserves P (py_index l i).
Proof. unfold py_index. destruct (l !! i); [apply preserves_ret | apply preserves_raise]. Qed.

Lemma preserves_py_int_true_div P a b : preserves P (py_int_true_div a b).
Proof.
  unfold py_int_true_div. destruct (int_true_div a b);
    first [apply preserves_ret | apply preserves_raise].
Qed.

Lemma preserves_fetch_data {A} P tag (api : string -> option A) url :
  (forall st l, P st ->
     P {| evo_cache := evo_cache st; fetch_log := l; csv_rows := csv_rows st |}) ->
  preserves P (fetch_data tag api url).
Proof.
  intros HP st Hst. destruct (api url) eqn:Ha;
    [rewrite (fetch_data_ok _ _ _ _ _ Ha) | rewrite (fetch_data_err _ _ _ _ Ha)];
    simpl; by apply HP.
Qed.

Lemma preserves_on_error_bind {A B} P (m : M A) (k : A -> M B) :
  preserves P m -> (forall x, preserves_on_error P (k x)) ->
  preserves_on_error P (bind m k).
Proof.
  intros Hm Hk st st' e Hst. unfold bind. pose proof (Hm st Hst) as H1.
  destruct (m st) as [st1 [e1|x]]; simpl in H1.
  - by intros [= <- _].
  - by apply Hk.
Qed.

Lemma preserves_on_error_writerow P r : preserves_on_error P (writerow r).
Proof.
  intros st st' e Hst. unfold writerow. destruct existsb; [by intros [= <- _]|].
  unfold write_row. by intros [=].
Qed.

Lemma preserves_coherent_get_evo_dict E url :
  preserves (cache_coherent E) (get_evo_dict E url).
Proof.
  intros st Hst. destruct (evo_cache st !! url) as [d|] eqn:Hc.
  - by rewrite (get_evo_dict_hit E url st d Hc).
  - rewrite (get_evo_dict_miss E url st Hc).
    destruct (get_chain E url) as [c|] eqn:Hg; simpl; [|exact Hst].
    intros u d. simpl. destruct (decide (u = url)) as [->|Hne].
    + rewrite lookup_insert_eq. intros [= <-]. by exists c.
    + rewrite lookup_insert_ne by done. apply Hst.
Qed.

Lemma preserves_coherent_writerow E r : preserves (cache_coherent E) (writerow r).
Proof. intros st Hst. unfold writerow. destruct existsb; exact Hst. Qed.

Lemma preserves_coherent_process_id E id : preserves (cache_coherent E) (process_id E id).
Proof.
  unfold process_id.
  repeat first [ apply preserves_coherent_writerow
               | apply preserves_coherent_get_evo_dict
               | apply preserves_fetch_data; intros ?? H; exact H
               | apply preserves_get_key | apply preserves_py_index
               | apply preserves_py_int_true_div
               | apply preserves_bind; intros ].
Qed.

Lemma preserves_for_each P f ids :
  (forall id, preserves P (f id)) -> preserves P (for_each f ids).
Proof.
  intros Hf. induction ids as [|id ids IH]; simpl; [apply preserves_ret|].
  apply preserves_bind; auto.
Qed.

(** Every mapping in [evo_cache] at the end of a run, complete or not, is
    the parse of the chain payload served at its URL: the cache never
    hands out a stale or foreign mapping. *)
Theorem run_main_cache_coherent E u d :
  evo_cache (run_main E).1 !! u = Some d ->
  exists c, get_chain E u = Some c /\ d = parse_evolution_chain c.
Proof.
  revert u d. change (cache_coherent E (main E initial_state).1).
  unfold main. apply preserves_bind.
  - intros st Hst. exact Hst.
  - intros _. apply preserves_for_each, preserves_coherent_process_id.
  - intros u d H. simpl in H. by rewrite lookup_empty in H.
Qed.

Lemma run_main_cache_coherent_witness :
  evo_cache (run_main sample_env).1 !! "https://pokeapi.co/api/v2/evolution-chain/1/"
    = Some (parse_evolution_chain bulbasaur_chain) /\
  exists c, get_chain sample_env "https://pokeapi.co/api/v2/evolution-chain/1/" = Some c /\
            parse_evolution_chain bulbasaur_chain = parse_evolution_chain c.
Proof.
  assert (evo_cache (run_main sample_env).1 !! "https://pokeapi.co/api/v2/evolution-chain/1/"
            = Some (parse_evolution_chain bulbasaur_chain)) as H
    by (vm_compute; reflexivity).
  split; [exact H|]. exact (run_main_cache_coherent _ _ _ H).
Defined.

(* ------------------------------------------------------------------ *)
(** ** Rows and exceptions *)

Lemma rows_get_evo_dict E url r :
  preserves (fun st => csv_rows st = r) (get_evo_dict E url).
Proof.
  intros st Hst. destruct (evo_cache st !! url) as [d|] eqn:Hc.
  - by rewrite (get_evo_dict_hit E url st d Hc).
  - rewrite (get_evo_dict_miss E url st Hc). by destruct (get_chain E url).
Qed.

Lemma process_id_err_rows E id st st' e :
  process_id E id st = (st', inl e) -> csv_rows st' = csv_rows st.
Proof.
  assert (forall r, preserves_on_error (fun s => csv_rows s = r) (process_id E id)) as Hp.
  { intros r. unfold process_id.
    repeat first [ apply preserves_on_error_writerow
                 | apply preserves_on_error_bind; intros
                 | apply rows_get_evo_dict
                 | apply preserves_fetch_data; intros ?? Hr; exact Hr
                 | apply preserves_get_key | apply preserves_py_index
                 | apply preserves_py_int_true_div ]. }
  intros H. exact (Hp _ st st' e eq_refl H).
Qed.

(** One id adds exactly one 17-cell row starting with the id when its
    body completes, and no row at all (not even a partial one) when the
    body raises. *)
Theorem process_id_rows E id st st' r :
  process_id E id st = (st', r) ->
  match r with
  | inl _ => csv_rows st' = csv_rows st
  | inr _ => exists row, csv_rows st' = csv_rows st ++ [row] /\
                         hd CNone row = CInt id /\ length row = 17
  end.
Proof.
  intros H. destruct r as [e|u].
  - exact (process_id_err_rows _ _ _ _ _ H).
  - destruct (process_id_row _ _ _ _ _ H)
      as (p & sp & d & t1 & s1 & s2 & s3 & s4 & s5 & s6 & _ & _ & _ & _ & _ & _ & _ & _ & _ & _ & Hrow).
    eexists. split; [exact Hrow | split; reflexivity].
Qed.

Lemma process_id_rows_witness :
  process_id no_speed_env 1 initial_state
    = ((process_id no_speed_env 1 initial_state).1, inl (KeyError "speed")) /\
  csv_rows (process_id no_speed_env 1 initial_state).1 = csv_rows initial_state.
Proof.
  assert (process_id no_speed_env 1 initial_state
            = ((process_id no_speed_env 1 initial_state).1, inl (KeyError "speed"))) as H
    by (vm_compute; reflexivity).
  split; [exact H|]. exact (process_id_rows _ _ _ _ _ H).
Defined.

(* ------------------------------------------------------------------ *)
(** ** Network calls *)

Lemma get_evo_dict_log E url st st1 d :
  get_evo_dict E url st = (st1, inr d) ->
  fetch_log st1 = fetch_log st ++
    match evo_cache st !! url with Some _ => [] | None => [FetchChain url] end.
Proof.
  destruct (evo_cache st !! url) as [d'|] eqn:Hc.
  - rewrite (get_evo_dict_hit E url st d' Hc). intros [= <- _]. by rewrite app_nil_r.
  - rewrite (get_evo_dict_miss E url st Hc).
    destruct (get_chain E url); [by intros [= <- _] | by intros [=]].
Qed.

Lemma writerow_state_inr r st st1 u :
  writerow r st = (st1, inr u) ->
  fetch_log st1 = fetch_log st /\ evo_cache st1 = evo_cache st.
Proof. unfold writerow. destruct existsb; [by intros [=]|]. by intros [= <- _]. Qed.

(** The network calls of one completed id: its Pokémon, then its species,
    then its evolution chain unless that URL is already cached. *)
Theorem process_id_fetches E id st st' u :
  process_id E id st = (st', inr u) ->
  exists p sp,
    get_pokemon E (pokemon_url id) = Some p /\
    get_species E (pk_species_url p) = Some sp /\
    fetch_log st' = fetch_log st ++
      [FetchPokemon (pokemon_url id); FetchSpecies (pk_species_url p)] ++
      match evo_cache st !! sp_evolution_chain_url sp with
      | Some _ => []
      | None => [FetchChain (sp_evolution_chain_url sp)]
      end.
Proof.
  intros H. unfold process_id in H.
  invert_bind H. apply fetch_data_inr in Hm as [Hp ->].
  invert_bind H. apply py_index_inr in Hm as [_ ->].
  do 6 (invert_bind H; apply get_key_inr in Hm as [_ ->]).
  do 2 (invert_bind H; apply py_int_true_div_inr in Hm as [_ ->]).
  invert_bind H. apply fetch_data_inr in Hm as [Hs ->].
  invert_bind H. apply get_evo_dict_log in Hm.
  apply writerow_state_inr in H as [Hl _].
  exists x, x9. split; [done | split; [done|]].
  rewrite Hl, Hm. simpl. by rewrite <- !app_assoc.
Qed.

Lemma process_id_fetches_witness :
  process_id sample_env 1 initial_state = ((process_id sample_env 1 initial_state).1, inr tt) /\
  exists p sp,
    get_pokemon sample_env (pokemon_url 1) = Some p /\
    get_species sample_env (pk_species_url p) = Some sp /\
    fetch_log (process_id sample_env 1 initial_state).1 = fetch_log initial_state ++
      [FetchPokemon (pokemon_url 1); FetchSpecies (pk_species_url p)] ++
      match evo_cache initial_state !! sp_evolution_chain_url sp with
      | Some _ => []
      | None => [FetchChain (sp_evolution_chain_url sp)]
      end.
Proof.
  assert (process_id sample_env 1 initial_state
            = ((process_id sample_env 1 initial_state).1, inr tt)) as H
    by (vm_compute; reflexivity).
  split; [exact H|]. exact (process_id_fetches _ _ _ _ _ H).
Defined.

Lemma pokemon_fetches_app l1 l2 :
  pokemon_fetches (l1 ++ l2) = pokemon_fetches l1 ++ pokemon_fetches l2.
Proof. induction l1 as [|[u|u|u] l1 IH]; simpl; rewrite ?IH; done. Qed.

Lemma for_each_pokemon_fetches E ids :
  forall st st', for_each (process_id E) ids st = (st', inr tt) ->
  pokemon_fetches (fetch_log st') = pokemon_fetches (fetch_log st) ++ map pokemon_url ids.
Proof.
  induction ids as [|id ids IH]; intros st st' H.
  - simpl in H. injection H as <-. by rewrite app_nil_r.
  - simpl in H. invert_bind H.
    destruct (process_id_fetches _ _ _ _ _ Hm) as (p & sp & _ & _ & Hl).
    rewrite (IH _ _ H), Hl, !pokemon_fetches_app. simpl.
    destruct (evo_cache st !! _); simpl; rewrite ?app_nil_r; by rewrite <- app_assoc.
Qed.

Lemma pokemon_url_inj i j : pokemon_url i = pokemon_url j -> i = j.
Proof.
  unfold pokemon_url. intros H. apply (inj (String.append _)) in H.
  apply (f_equal list_ascii_of_string) in H. rewrite !list_ascii_of_string_app in H.
  apply app_inv_tail in H. apply (f_equal string_of_list_ascii) in H.
  rewrite !string_of_list_ascii_of_string in H. by apply (inj pretty).
Qed.

(** A completed run fetches the Pokémon of ids 1..151 in ascending order,
    and no Pokémon URL twice. *)
Theorem run_main_pokemon_fetches E st :
  run_main E = (st, inr tt) ->
  pokemon_fetches (fetch_log st) = map pokemon_url (py_range 1 152) /\
  NoDup (pokemon_fetches (fetch_log st)).
Proof.
  intros H. unfold run_main, main in H. invert_bind H.
  unfold writeheader, write_row in Hm. injection Hm as <- _.
  rewrite (for_each_pokemon_fetches _ _ _ _ H). cbn [fetch_log pokemon_fetches app].
  split; [reflexivity|].
  apply (NoDup_fmap_2_strong pokemon_url); [intros i j _ _; apply pokemon_url_inj|].
  rewrite py_range_1_152. apply (NoDup_fmap_2_strong Z.of_nat); [intros i j _ _; lia|].
  apply NoDup_seq.
Qed.

Lemma run_main_pokemon_fetches_witness :
  run_main sample_env = ((run_main sample_env).1, inr tt) /\
  pokemon_fetches (fetch_log (run_main sample_env).1) = map pokemon_url (py_range 1 152) /\
  NoDup (pokemon_fetches (fetch_log (run_main sample_env).1)).
Proof.
  assert (run_main sample_env = ((run_main sample_env).1, inr tt)) as H
    by (vm_compute; reflexivity).
  split; [exact H|]. exact (run_main_pokemon_fetches _ _ H).
Defined.

(* ------------------------------------------------------------------ *)
(** ** The CSV file of an interrupted run *)

Lemma for_each_rows_any E ids :
  forall st, exists rows,
    csv_rows (for_each (process_id E) ids st).1 = csv_rows st ++ rows /\
    map (hd CNone) rows = map CInt (take (length rows) ids) /\
    Forall (fun r => length r = 17) rows /\
    ((for_each (process_id E) ids st).2 = inr tt /\ length rows = length ids \/
     (exists e, (for_each (process_id E) ids st).2 = inl e) /\ length rows < length ids).
Proof.
  induction ids as [|id ids IH]; intros st.
  - exists []. simpl. rewrite app_nil_r. split; [done|]. split; [done|].
    split; [apply List.Forall_nil|]. by left.
  - simpl. unfold bind. destruct (process_id E id st) as [st1 [e|[]]] eqn:H.
    + exists []. cbn. rewrite (process_id_err_rows _ _ _ _ _ H), app_nil_r.
      split; [done|]. split; [done|]. split; [apply List.Forall_nil|].
      right. split; [by exists e | simpl; lia].
    + destruct (process_id_row _ _ _ _ _ H)
        as (p & sp & d & t1 & s1 & s2 & s3 & s4 & s5 & s6 & _ & _ & _ & _ & _ & _ & _ & _ & _ & _ & Hrow).
      destruct (IH st1) as (rows & Hr & Hids & Hlen & Hend).
      eexists (_ :: rows). split; [rewrite Hr, Hrow; by rewrite <- app_assoc|].
      split; [simpl; by rewrite Hids|].
      split; [apply List.Forall_cons; [reflexivity | exact Hlen]|].
      simpl. destruct Hend as [[-> ->] | [He Hlt]]; [left | right]; split; auto; lia.
Qed.

(** Whatever the outcome, [pokemon.csv] holds the header and then one
    complete (17-cell) row for each of the first ids in order; a run that
    raises leaves fewer than 151 rows. *)
Theorem run_main_rows_prefix E :
  exists rows,
    csv_rows (run_main E).1 = map CStr fieldnames :: rows /\
    map (hd CNone) rows = map CInt (take (length rows) (py_range 1 152)) /\
    Forall (fun r => length r = 17) rows /\
    ((run_main E).2 = inr tt /\ length rows = 151 \/
     (exists e, (run_main E).2 = inl e) /\ length rows < 151).
Proof.
  unfold run_main, main, bind, writeheader, write_row. simpl.
  destruct (for_each_rows_any E (py_range 1 152)
              {| evo_cache := ∅; fetch_log := []; csv_rows := [map CStr fieldnames] |})
    as (rows & Hr & Hids & Hlen & Hend).
  exists rows. split; [exact Hr|]. split; [exact Hids|]. split; [exact Hlen|]. exact Hend.
Qed.

(* ------------------------------------------------------------------ *)
(** ** Evolution columns against the served chain *)

(** From a coherent cache, a completed id writes in [evolution_from] the
    parent of its node in the chain served for its species (or [""] at the
    root) and in [evolution_to] its children joined by [", "], when the
    chain's species names are distinct. *)
Theorem process_id_evolution_columns E id st st' u :
  cache_coherent E st ->
  process_id E id st = (st', inr u) ->
  exists p sp c row,
    get_pokemon E (pokemon_url id) = Some p /\
    get_species E (pk_species_url p) = Some sp /\
    get_chain E (sp_evolution_chain_url sp) = Some c /\
    csv_rows st' = csv_rows st ++ [row] /\
    (NoDup (names (chain c)) ->
     forall q m, (q, m) ∈ nodes_with_parent (chain c) None ->
       species_name m = pk_name p ->
       row !! 14 = Some (CStr (match q with Some s => s | None => "" end)) /\
       row !! 15 = Some (CStr (String.concat ", " (map species_name (evolves_to m))))).
Proof.
  intros Hcoh H.
  pose proof (preserves_coherent_process_id E id st Hcoh) as Hcoh'.
  rewrite H in Hcoh'. simpl in Hcoh'.
  destruct (process_id_row _ _ _ _ _ H)
    as (p & sp & d & t1 & s1 & s2 & s3 & s4 & s5 & s6
        & Hp & _ & _ & _ & _ & _ & _ & _ & Hs & Hd & Hrow).
  destruct (Hcoh' _ _ Hd) as (c & Hc & ->).
  eexists p, sp, c, _. split; [exact Hp|]. split; [exact Hs|]. split; [exact Hc|].
  split; [exact Hrow|].
  intros Hnd q m Hin Hname. simpl.
  unfold evo_details_of. rewrite <- Hname, (parse_evolution_chain_entries c q m Hnd Hin).
  rewrite render_from_option, render_to_concat. by split.
Qed.

Lemma process_id_evolution_columns_witness :
  cache_coherent sample_env initial_state /\
  process_id sample_env 1 initial_state = ((process_id sample_env 1 initial_state).1, inr tt) /\
  exists p sp c row,
    get_pokemon sample_env (pokemon_url 1) = Some p /\
    get_species sample_env (pk_species_url p) = Some sp /\
    get_chain sample_env (sp_evolution_chain_url sp) = Some c /\
    csv_rows (process_id sample_env 1 initial_state).1 = csv_rows initial_state ++ [row] /\
    (NoDup (names (chain c)) ->
     forall q m, (q, m) ∈ nodes_with_parent (chain c) None ->
       species_name m = pk_name p ->
       row !! 14 = Some (CStr (match q with Some s => s | None => "" end)) /\
       row !! 15 = Some (CStr (String.concat ", " (map species_name (evolves_to m))))).
Proof.
  assert (cache_coherent sample_env initial_state) as H1
    by (intros u d Hu; vm_compute in Hu; discriminate Hu).
  assert (process_id sample_env 1 initial_state
            = ((process_id sample_env 1 initial_state).1, inr tt)) as H2
    by (vm_compute; reflexivity).
  split; [exact H1|]. split; [exact H2|].
  exact (process_id_evolution_columns _ _ _ _ _ H1 H2).
Defined.
